(** * portscanner.c: a bounded-concurrency TCP connect scanner

    Shallow embedding of [src/portscanner.c].

    - [scan_port] is the prober: one non-blocking connect with a [select]
      timeout.  The answers of the operating system are an explicit oracle
      ([os_answers]); the function returns the system calls and output it
      performs, in order, together with its C return value.
    - [worker] and [main] run concurrently.  They are modelled as an
      interleaving transition system ([step]) over the dispatcher's program
      point, the value of the named semaphore, the detached threads and a
      chronological log of what happened. *)

From Stdlib Require Import ZArith List String Ascii DecimalString Bool Lia.
Import ListNotations.
Open Scope string_scope.
Open Scope list_scope.
Open Scope Z_scope.

(** ** Constants of the C library (Linux values) *)

Definition EXIT_FAILURE : Z := 1.
Definition EINPROGRESS : Z := 115.
Definition O_NONBLOCK : Z := 2048.
Definition SEM_VALUE_MAX : Z := 2147483647.
Definition FD_SETSIZE : Z := 1024.
Definition SEM_NAME : string := "/portscanner_sem".

(** Conversion of an [int] to [unsigned int], as happens to the last
    argument of [sem_open]. *)
Definition to_unsigned (v : Z) : Z := v mod 2 ^ 32.

(** [htons] on a little-endian host: the argument is cut to 16 bits and
    its two bytes are swapped. *)
Definition htons (v : Z) : Z :=
  let h := Z.land v 65535 in
  Z.lor (Z.shiftl (Z.land h 255) 8) (Z.shiftr h 8).

Definition newline : string := String (ascii_of_nat 10) EmptyString.

(** [%d] of printf. *)
Definition fmt_d (v : Z) : string := NilZero.string_of_int (Z.to_int v).

(** ** The prober: [scan_port] *)

(** An [fd_set] as the program leaves it.  [Some l] holds the descriptors
    [l].  The set has room for the descriptors below FD_SETSIZE only and
    [FD_SET] does not look at its argument: given another descriptor it
    writes outside the set, and what [select] is then handed is no longer
    decided by the program ([None]). *)
Definition fd_set : Type := option (list Z).

Definition FD_ZERO : fd_set := Some [].

Definition FD_SET (fd : Z) (set : fd_set) : fd_set :=
  match set with
  | Some l => if (0 <=? fd) && (fd <? FD_SETSIZE) then Some (fd :: l) else None
  | None => None
  end.

(** What [sin_addr] holds after lines 55-58: [memset] clears it, and
    [inet_pton], whose result is not looked at, fills it in only when the
    string is an IPv4 address in dotted-decimal form. *)
Inductive in_addr : Type :=
| InAddr (literal : string)   (* the address that the string denotes *)
| InAddrAny.                  (* 0.0.0.0, left by memset *)

(** What one call of [scan_port] does to the outside world. *)
Inductive event : Type :=
| EvSocket (ret : Z)                      (* socket(AF_INET, SOCK_STREAM, 0) *)
| EvGetFl (fd : Z)                        (* fcntl(fd, F_GETFL, 0) *)
| EvSetFl (fd flags : Z)                  (* fcntl(fd, F_SETFL, flags) *)
| EvConnect (fd : Z) (sin_addr : in_addr) (sin_port : Z)
| EvSelect (nfds : Z) (writefds : fd_set) (tv_sec : Z)
                                          (* select(nfds, 0, writefds, 0, tv) *)
| EvGetSockOpt (fd : Z)                   (* getsockopt(fd, .., SO_ERROR) *)
| EvClose (fd : Z)
| EvPerror (what : string)                (* perror: standard error *)
| EvPrintf (text : string).               (* printf: standard output *)

(** The answers of the operating system and of the C library during one
    probe. *)
Record os_answers : Type := {
  socket_ret : Z;      (* descriptor, or negative *)
  getfl_ret : Z;       (* current file status flags *)
  inet_pton_ret : Z;   (* 1 if the string is a dotted IPv4 address, else 0 *)
  connect_ret : Z;     (* result of connect *)
  connect_errno : Z;   (* errno after connect *)
  select_ret : Z;      (* >0 ready, 0 timed out, <0 failed *)
  so_error : Z         (* pending socket error read by getsockopt *)
}.

Definition say (verbose : bool) (e : event) : list event :=
  if verbose then [e] else [].

Definition msg_open (port : Z) : string :=
  ("Port " ++ fmt_d port ++ " open" ++ newline)%string.

Definition msg_closed (port : Z) : string :=
  ("Port " ++ fmt_d port ++ " closed or timeout" ++ newline)%string.

(** Lines 38-86.  The result is the trace of the call and its return
    value (1 if the port is open, 0 otherwise). *)
Definition scan_port (os : os_answers) (ip : string) (port timeout_sec : Z)
    (verbose : bool) : list event * Z :=
  let sockfd := socket_ret os in
  if sockfd <? 0 then
    ([EvSocket sockfd] ++ say verbose (EvPerror "socket"), 0)
  else
    let flags := getfl_ret os in
    let sin_addr := if inet_pton_ret os =? 1 then InAddr ip else InAddrAny in
    let setup :=
      [EvSocket sockfd; EvGetFl sockfd;
       EvSetFl sockfd (Z.lor flags O_NONBLOCK);
       EvConnect sockfd sin_addr (htons port)] in
    let closed t :=
      (t ++ [EvClose sockfd] ++ say verbose (EvPrintf (msg_closed port)), 0) in
    let opened t :=
      (t ++ [EvClose sockfd] ++ say verbose (EvPrintf (msg_open port)), 1) in
    let res := connect_ret os in
    if res <? 0 then
      if connect_errno os =? EINPROGRESS then
        let fdset := FD_SET sockfd FD_ZERO in
        let waiting := setup ++ [EvSelect (sockfd + 1) fdset timeout_sec] in
        let res := select_ret os in
        if res >? 0 then
          let error := so_error os in
          let inspected := waiting ++ [EvGetSockOpt sockfd] in
          if error =? 0 then opened inspected
          else closed inspected
        else closed waiting
      else closed setup
    else opened setup.

(** The descriptors a trace leaves open: [socket] opens one, [close]
    removes it. *)
Fixpoint open_fds (held : list Z) (t : list event) : list Z :=
  match t with
  | [] => held
  | EvSocket fd :: t' =>
      if fd <? 0 then open_fds held t' else open_fds (fd :: held) t'
  | EvClose fd :: t' => open_fds (filter (fun x => negb (x =? fd)) held) t'
  | _ :: t' => open_fds held t'
  end.

Definition is_output (e : event) : bool :=
  match e with
  | EvPerror _ | EvPrintf _ => true
  | _ => false
  end.

Definition is_close (fd : Z) (e : event) : bool :=
  match e with
  | EvClose x => x =? fd
  | _ => false
  end.

(** Whether an event is an operation on descriptor [fd] other than
    closing it. *)
Definition uses_fd (fd : Z) (e : event) : bool :=
  match e with
  | EvGetFl x | EvSetFl x _ | EvConnect x _ _ | EvGetSockOpt x => x =? fd
  | EvSelect _ (Some l) _ => existsb (Z.eqb fd) l
  | EvSelect _ None _ => true
  | _ => false
  end.

(** What a caller or a user can observe of a probe: its return value and
    what it wrote. *)
Definition observable (r : list event * Z) : list event * Z :=
  (filter is_output (fst r), snd r).

(** ** The outcome classes of the specification

    The specification names four outcomes of a probe.  [spec_outcome]
    follows its wording, for comparison with what [scan_port] returns. *)
Inductive outcome : Type :=
| Open
| Closed
| Timeout
| Error (cause : string).

(** Outcome as the specification describes it, for a probe whose socket was
    created and whose connect was reported as in progress. *)
Definition spec_outcome (os : os_answers) : outcome :=
  if select_ret os >? 0 then
    if so_error os =? 0 then Open else Closed
  else if select_ret os =? 0 then Timeout
  else Error "select".

(** ** The dispatcher and its threads *)

(** The locals of [main] once the [getopt] loop is over (lines 120-153). *)
Record config : Type := {
  ip : string;
  start_port : Z;
  end_port : Z;
  timeout_sec : Z;
  concurrency : Z;
  verbose : bool
}.

(** A configuration as section 3 of the specification wants it. *)
Definition valid_config (cfg : config) : Prop :=
  1 <= start_port cfg /\ start_port cfg <= end_port cfg /\
  end_port cfg <= 65535 /\ 0 < timeout_sec cfg /\ 0 < concurrency cfg.

(** The test of line 155. *)
Definition invalid_range (cfg : config) : bool :=
  (start_port cfg >? end_port cfg) || (start_port cfg <? 1)
  || (end_port cfg >? 65535).

Record scan_task_t : Type := {
  task_ip : string;
  task_port : Z;
  task_timeout_sec : Z;
  task_verbose : bool
}.

(** [strncpy(dst, src, 63); dst[63] = 0] into a 64-byte buffer. *)
Definition strncpy63 (src : string) : string := substring 0 63 src.

(** Lines 178-182. *)
Definition make_task (cfg : config) (port : Z) : scan_task_t :=
  {| task_ip := strncpy63 (ip cfg);
     task_port := port;
     task_timeout_sec := timeout_sec cfg;
     task_verbose := verbose cfg |}.

(** Program points of a thread running [worker] (lines 95-101). *)
Inductive worker_pc : Type :=
| WCall                                        (* about to enter scan_port *)
| WScan (done todo : list event) (ret : Z)     (* inside scan_port *)
| WPost                                        (* about to sem_post *)
| WFree.                                       (* about to free and return *)

Record thread : Type := {
  th_task : scan_task_t;
  th_pc : worker_pc
}.

(** Program points of [main] from line 155 on. *)
Inductive main_pc : Type :=
| PValidate                     (* line 155 *)
| PSemOpen                      (* lines 161-166 *)
| PLoop (port : Z)              (* lines 169-170: loop test and sem_wait *)
| PMalloc (port : Z)            (* line 172 *)
| PCreate (task : scan_task_t)  (* line 184 *)
| PDrain (i : Z)                (* lines 194-195 *)
| PExit (status : Z).           (* the process is over *)

(** The chronological log of a run. *)
Inductive action : Type :=
| ASemWait (port : Z)           (* line 170, iteration of [port] *)
| ASemPostMain (port : Z)       (* lines 175 and 186 *)
| ASemPostWorker (port : Z)     (* line 98 *)
| ADrainWait (i : Z)            (* line 195 *)
| ASpawn (port : Z)             (* pthread_create succeeded *)
| AStderr (text : string)       (* perror or fprintf(stderr) of main *)
| ASys (port : Z) (e : event)   (* an event of the scan_port call for [port] *)
| AReturn (port : Z) (ret : Z)  (* scan_port returned *)
| ASemUnlink                    (* lines 161 and 199 *)
| ASemClose.                    (* line 198 *)

Record state : Type := {
  st_pc : main_pc;
  semaphore : option Z;         (* None: the NULL of line 26 *)
  threads : list thread;
  log : list action
}.

Definition initial_state : state :=
  {| st_pc := PValidate; semaphore := None; threads := []; log := [] |}.

(** Who moves next, and what the environment answers if it is asked:
    [ok] is the success of [sem_open], [malloc] or [pthread_create] when
    the dispatcher is at one of them, [os] the answers to the probe that a
    thread is about to begin. *)
Inductive choice : Type :=
| Main (ok : bool)
| Thread (n : nat) (os : os_answers).

Fixpoint replace_nth {A : Type} (n : nat) (x : A) (l : list A) : list A :=
  match l, n with
  | [], _ => []
  | _ :: l', O => x :: l'
  | y :: l', S n' => y :: replace_nth n' x l'
  end.

Fixpoint remove_nth {A : Type} (n : nat) (l : list A) : list A :=
  match l, n with
  | [], _ => []
  | _ :: l', O => l'
  | y :: l', S n' => y :: remove_nth n' l'
  end.

(** [sem_wait]: blocks (no step) while the value is zero. *)
Definition sem_wait (s : state) : option state :=
  match semaphore s with
  | Some v =>
      if v >? 0 then
        Some {| st_pc := st_pc s; semaphore := Some (v - 1);
                threads := threads s; log := log s |}
      else None
  | None => None
  end.

(** [sem_post]. *)
Definition sem_post (s : state) : state :=
  {| st_pc := st_pc s;
     semaphore := option_map (fun v => v + 1) (semaphore s);
     threads := threads s; log := log s |}.

Definition goto (pc : main_pc) (s : state) : state :=
  {| st_pc := pc; semaphore := semaphore s; threads := threads s;
     log := log s |}.

Definition record (l : list action) (s : state) : state :=
  {| st_pc := st_pc s; semaphore := semaphore s; threads := threads s;
     log := log s ++ l |}.

Definition set_threads (ts : list thread) (s : state) : state :=
  {| st_pc := st_pc s; semaphore := semaphore s; threads := ts;
     log := log s |}.

(** One step of [main], lines 155-201. *)
Definition main_step (cfg : config) (ok : bool) (s : state) : option state :=
  match st_pc s with
  | PValidate =>
      if invalid_range cfg then
        Some (goto (PExit EXIT_FAILURE)
                (record [AStderr ("Invalid port range" ++ newline)%string] s))
      else Some (goto PSemOpen s)
  | PSemOpen =>
      if ok && (to_unsigned (concurrency cfg) <=? SEM_VALUE_MAX) then
        Some {| st_pc := PLoop (start_port cfg);
                semaphore := Some (to_unsigned (concurrency cfg));
                threads := threads s; log := log s ++ [ASemUnlink] |}
      else
        Some (goto (PExit EXIT_FAILURE)
                (record [ASemUnlink; AStderr "sem_open"] s))
  | PLoop port =>
      if port <=? end_port cfg then
        option_map (fun s' => goto (PMalloc port) (record [ASemWait port] s'))
                   (sem_wait s)
      else Some (goto (PDrain 0) s)
  | PMalloc port =>
      if ok then Some (goto (PCreate (make_task cfg port)) s)
      else
        Some (goto (PLoop (port + 1))
                (record [AStderr "malloc"; ASemPostMain port] (sem_post s)))
  | PCreate task =>
      if ok then
        Some (goto (PLoop (task_port task + 1))
                (record [ASpawn (task_port task)]
                   (set_threads
                      (threads s ++ [{| th_task := task; th_pc := WCall |}])
                      s)))
      else
        Some (goto (PLoop (task_port task + 1))
                (record [AStderr "pthread_create";
                         ASemPostMain (task_port task)] (sem_post s)))
  | PDrain i =>
      if i <? concurrency cfg then
        option_map (fun s' => goto (PDrain (i + 1)) (record [ADrainWait i] s'))
                   (sem_wait s)
      else Some (goto (PExit 0) (record [ASemClose; ASemUnlink] s))
  | PExit _ => None
  end.

(** One step of the [n]-th thread, lines 95-101.  The call of [scan_port]
    is spread over as many steps as it has events, so that the other
    threads and the dispatcher interleave with it; the answers [os] of the
    operating system are those given when the call begins. *)
Definition worker (n : nat) (os : os_answers) (s : state) : option state :=
  match st_pc s with
  | PExit _ => None
  | _ =>
    match nth_error (threads s) n with
    | None => None
    | Some th =>
        let task := th_task th in
        let at_pc pc :=
          set_threads
            (replace_nth n {| th_task := task; th_pc := pc |} (threads s)) s in
        match th_pc th with
        | WCall =>
            let (t, ret) :=
              scan_port os (task_ip task) (task_port task)
                (task_timeout_sec task) (task_verbose task) in
            Some (at_pc (WScan [] t ret))
        | WScan done (e :: todo) ret =>
            Some (record [ASys (task_port task) e]
                    (at_pc (WScan (done ++ [e]) todo ret)))
        | WScan done [] ret =>
            Some (record [AReturn (task_port task) ret] (at_pc WPost))
        | WPost =>
            Some (record [ASemPostWorker (task_port task)]
                    (sem_post (at_pc WFree)))
        | WFree => Some (set_threads (remove_nth n (threads s)) s)
        end
    end
  end.

Definition step (cfg : config) (c : choice) (s : state) : option state :=
  match c with
  | Main ok => main_step cfg ok s
  | Thread n os => worker n os s
  end.

(** A run under a schedule. *)
Fixpoint run (cfg : config) (sched : list choice) (s : state) : option state :=
  match sched with
  | [] => Some s
  | c :: sched' =>
      match step cfg c s with
      | Some s' => run cfg sched' s'
      | None => None
      end
  end.

Definition reachable (cfg : config) (s : state) : Prop :=
  exists sched, run cfg sched initial_state = Some s.

(** ** Counting in logs and thread lists *)

Fixpoint countb {A : Type} (f : A -> bool) (l : list A) : nat :=
  match l with
  | [] => 0%nat
  | x :: l' => ((if f x then 1 else 0) + countb f l')%nat
  end.

Definition is_wait (q : Z) (a : action) : bool :=
  match a with ASemWait p => p =? q | _ => false end.

Definition is_post_main (q : Z) (a : action) : bool :=
  match a with ASemPostMain p => p =? q | _ => false end.

Definition is_post_worker (q : Z) (a : action) : bool :=
  match a with ASemPostWorker p => p =? q | _ => false end.

Definition is_spawn (q : Z) (a : action) : bool :=
  match a with ASpawn p => p =? q | _ => false end.

Definition is_sys (q : Z) (a : action) : bool :=
  match a with ASys p _ => p =? q | _ => false end.

Definition is_return (q : Z) (a : action) : bool :=
  match a with AReturn p _ => p =? q | _ => false end.

(** Number of slots taken for port [q], given back for it by the
    dispatcher and by its thread, and so on. *)
Definition acquires (q : Z) (s : state) : nat := countb (is_wait q) (log s).
Definition releases_main (q : Z) (s : state) : nat :=
  countb (is_post_main q) (log s).
Definition releases_worker (q : Z) (s : state) : nat :=
  countb (is_post_worker q) (log s).
Definition releases (q : Z) (s : state) : nat :=
  (releases_main q s + releases_worker q s)%nat.
Definition spawns (q : Z) (s : state) : nat := countb (is_spawn q) (log s).
Definition results (q : Z) (s : state) : nat := countb (is_return q) (log s).
Definition probe_events (q : Z) (s : state) : nat := countb (is_sys q) (log s).

(** A thread holds its slot until it has posted the semaphore. *)
Definition holds_slot (th : thread) : bool :=
  match th_pc th with WFree => false | _ => true end.

(** A thread is probing until [scan_port] has returned. *)
Definition probing (th : thread) : bool :=
  match th_pc th with WCall | WScan _ _ _ => true | _ => false end.

Definition for_port (q : Z) (th : thread) : bool := task_port (th_task th) =? q.

(** Probes in flight: threads that have not yet released their slot. *)
Definition in_flight (s : state) : nat := countb holds_slot (threads s).

Definition in_flight_for (q : Z) (s : state) : nat :=
  countb (fun th => for_port q th && holds_slot th) (threads s).

Definition probing_for (q : Z) (s : state) : nat :=
  countb (fun th => for_port q th && probing th) (threads s).

(** A thread whose [scan_port] has returned and that has not yet posted
    the semaphore (line 98). *)
Definition posting (th : thread) : bool :=
  match th_pc th with WPost => true | _ => false end.

Definition posting_for (q : Z) (s : state) : nat :=
  countb (fun th => for_port q th && posting th) (threads s).

(** Descriptors open in a thread: those its call of [scan_port] has opened
    and not yet closed. *)
Definition thread_fds (th : thread) : list Z :=
  match th_pc th with
  | WScan done _ _ => open_fds [] done
  | _ => []
  end.

Definition open_sockets (s : state) : list Z := flat_map thread_fds (threads s).

(** Slots of the semaphore that are taken. *)
Definition slots_in_use (cfg : config) (s : state) : Z :=
  match semaphore s with
  | Some v => concurrency cfg - v
  | None => 0
  end.

(** Slots the dispatcher itself holds at a program point. *)
Definition held (cfg : config) (pc : main_pc) : Z :=
  match pc with
  | PMalloc _ | PCreate _ => 1
  | PDrain i => i
  | PExit _ => concurrency cfg
  | _ => 0
  end.

Definition main_holds (q : Z) (pc : main_pc) : nat :=
  match pc with
  | PMalloc p => if p =? q then 1%nat else 0%nat
  | PCreate t => if task_port t =? q then 1%nat else 0%nat
  | _ => 0%nat
  end.

(** The first port the loop of line 169 has not yet taken a slot for. *)
Definition next_port (cfg : config) (pc : main_pc) : Z :=
  match pc with
  | PValidate | PSemOpen => start_port cfg
  | PLoop p => p
  | PMalloc p => p + 1
  | PCreate t => task_port t + 1
  | PDrain _ => end_port cfg + 1
  | PExit st => if st =? 0 then end_port cfg + 1 else start_port cfg
  end.

(** The ports of the [sem_wait]s of line 170, in the order of the log. *)
Fixpoint acquired (l : list action) : list Z :=
  match l with
  | [] => []
  | ASemWait p :: l' => p :: acquired l'
  | _ :: l' => acquired l'
  end.

(** The integers [a, a+1, ..., b-1]. *)
Definition zrange (a b : Z) : list Z :=
  map (fun k => a + Z.of_nat k) (seq 0 (Z.to_nat (b - a))).

Definition is_int (v : Z) : Prop := - 2 ^ 31 <= v < 2 ^ 31.

(** The fields of a configuration are C [int]s. *)
Definition int_config (cfg : config) : Prop :=
  is_int (start_port cfg) /\ is_int (end_port cfg) /\
  is_int (timeout_sec cfg) /\ is_int (concurrency cfg).

(** The outputs of a log that come from probes. *)
Definition probe_output (a : action) : bool :=
  match a with
  | ASys _ e => is_output e
  | _ => false
  end.

(** What the process wrote on standard output. *)
Definition on_stdout (a : action) : bool :=
  match a with
  | ASys _ (EvPrintf _) => true
  | _ => false
  end.

(** ** The invariant of the transition system *)

(** The task of a thread is the one line 178-182 built for its port, and
    a thread inside [scan_port] is somewhere along the trace of one call. *)
Definition thread_ok (cfg : config) (th : thread) : Prop :=
  th_task th = make_task cfg (task_port (th_task th)) /\
  start_port cfg <= task_port (th_task th) <= end_port cfg /\
  match th_pc th with
  | WScan done todo ret =>
      exists os,
        scan_port os (task_ip (th_task th)) (task_port (th_task th))
          (task_timeout_sec (th_task th)) (task_verbose (th_task th))
        = (done ++ todo, ret)
  | _ => True
  end.

Definition pc_ok (cfg : config) (pc : main_pc) : Prop :=
  match pc with
  | PValidate => True
  | PSemOpen => invalid_range cfg = false
  | PLoop p =>
      invalid_range cfg = false /\ start_port cfg <= p <= end_port cfg + 1
  | PMalloc p =>
      invalid_range cfg = false /\ start_port cfg <= p <= end_port cfg
  | PCreate t =>
      invalid_range cfg = false /\ t = make_task cfg (task_port t) /\
      start_port cfg <= task_port t <= end_port cfg
  | PDrain i => invalid_range cfg = false /\ 0 <= i <= concurrency cfg
  | PExit st => st = 0 /\ invalid_range cfg = false \/ st = EXIT_FAILURE
  end.

(** Whether the semaphore has been opened. *)
Definition started (pc : main_pc) : bool :=
  match pc with
  | PValidate | PSemOpen => false
  | PExit st => st =? 0
  | _ => true
  end.

(** Every permit is either in the semaphore, with the dispatcher, or with
    a thread that has not posted yet. *)
Definition sem_ok (cfg : config) (s : state) : Prop :=
  match semaphore s with
  | None => started (st_pc s) = false /\ threads s = []
  | Some v =>
      started (st_pc s) = true /\ 0 <= v /\
      v + held cfg (st_pc s) + Z.of_nat (in_flight s) = concurrency cfg
  end.

Record base_inv (cfg : config) (s : state) : Prop := {
  base_pc : pc_ok cfg (st_pc s);
  base_sem : sem_ok cfg s;
  base_threads : Forall (thread_ok cfg) (threads s)
}.

(** For every port: the slots taken, given back and still out, and the
    probes launched, finished and still running, balance. *)
Definition counts_ok (cfg : config) (s : state) : Prop :=
  forall q,
    acquires q s =
      (if (start_port cfg <=? q) && (q <? next_port cfg (st_pc s))
       then 1%nat else 0%nat) /\
    (acquires q s =
       releases_main q s + releases_worker q s + main_holds q (st_pc s)
       + in_flight_for q s)%nat /\
    (spawns q s = releases_worker q s + in_flight_for q s)%nat /\
    (spawns q s = results q s + probing_for q s)%nat /\
    (0 < probe_events q s -> 1 <= spawns q s)%nat.

(** The loop of line 169 takes its slots for the ports in ascending
    order, without a gap. *)
Definition order_ok (cfg : config) (s : state) : Prop :=
  acquired (log s) = zrange (start_port cfg) (next_port cfg (st_pc s)).

(** Every probe event of the log is an event of a call of [scan_port] on
    the task that line 178-182 builds for its port. *)
Definition action_ok (cfg : config) (a : action) : Prop :=
  match a with
  | ASys q e =>
      exists os,
        In e (fst (scan_port os (strncpy63 (ip cfg)) q (timeout_sec cfg)
                     (verbose cfg)))
  | _ => True
  end.

Definition log_ok (cfg : config) (s : state) : Prop :=
  Forall (action_ok cfg) (log s).

Record inv (cfg : config) (s : state) : Prop := {
  inv_base : base_inv cfg s;
  inv_counts : counts_ok cfg s;
  inv_order : order_ok cfg s;
  inv_log : log_ok cfg s
}.

(** ** A bound on what is left of a run *)

(** Steps a thread still has to take. *)
Definition thread_fuel (th : thread) : nat :=
  match th_pc th with
  | WCall => 12
  | WScan _ todo _ => 3 + List.length todo
  | WPost => 2
  | WFree => 1
  end.

Definition threads_fuel (ths : list thread) : nat :=
  list_sum (map thread_fuel ths).

(** Steps the dispatcher still has to take, counting for every port it
    may launch the steps of the thread. *)
Definition main_fuel (cfg : config) (pc : main_pc) : Z :=
  let drain i := concurrency cfg - i + 1 in
  let loop p := (end_port cfg + 1 - p) * 16 + drain 0 + 1 in
  match pc with
  | PValidate => loop (start_port cfg) + 2
  | PSemOpen => loop (start_port cfg) + 1
  | PLoop p => loop p
  | PMalloc p => loop p - 1
  | PCreate t => loop (task_port t) - 2
  | PDrain i => drain i
  | PExit _ => 0
  end.

Definition fuel (cfg : config) (s : state) : nat :=
  (Z.to_nat (main_fuel cfg (st_pc s)) + threads_fuel (threads s))%nat.

(** ** Concrete inputs *)

(** The peer answers the handshake. *)
Definition os_accept : os_answers :=
  {| socket_ret := 3; getfl_ret := 2; inet_pton_ret := 1; connect_ret := -1;
     connect_errno := EINPROGRESS; select_ret := 1; so_error := 0 |}.

(** The peer refuses: the socket becomes writable with ECONNREFUSED (111)
    pending. *)
Definition os_refuse : os_answers :=
  {| socket_ret := 3; getfl_ret := 2; inet_pton_ret := 1; connect_ret := -1;
     connect_errno := EINPROGRESS; select_ret := 1; so_error := 111 |}.

(** Nothing comes back before the timeout. *)
Definition os_silent : os_answers :=
  {| socket_ret := 4; getfl_ret := 2; inet_pton_ret := 1; connect_ret := -1;
     connect_errno := EINPROGRESS; select_ret := 0; so_error := 0 |}.

(** [select] itself fails. *)
Definition os_select_fails : os_answers :=
  {| socket_ret := 3; getfl_ret := 2; inet_pton_ret := 1; connect_ret := -1;
     connect_errno := EINPROGRESS; select_ret := -1; so_error := 0 |}.

Definition cfg_one_port : config :=
  {| ip := "127.0.0.1"; start_port := 80; end_port := 80; timeout_sec := 1;
     concurrency := 1; verbose := false |}.

Definition cfg_two_ports : config :=
  {| ip := "127.0.0.1"; start_port := 80; end_port := 81; timeout_sec := 1;
     concurrency := 2; verbose := true |}.

Definition cfg_zero_timeout : config :=
  {| ip := "127.0.0.1"; start_port := 80; end_port := 80; timeout_sec := 0;
     concurrency := 1; verbose := false |}.

Definition cfg_zero_concurrency : config :=
  {| ip := "127.0.0.1"; start_port := 80; end_port := 80; timeout_sec := 1;
     concurrency := 0; verbose := false |}.

Definition cfg_reversed : config :=
  {| ip := "127.0.0.1"; start_port := 100; end_port := 50; timeout_sec := 1;
     concurrency := 50; verbose := false |}.

(** Validation, [sem_open], one slot, [malloc], [pthread_create]. *)
Definition sched_launch : list choice :=
  [Main true; Main true; Main true; Main true; Main true].

(** The steps of thread [n] from its start to its exit for a probe with
    answers [os] and [k] events. *)
Definition sched_thread (n : nat) (os : os_answers) (k : nat) : list choice :=
  repeat (Thread n os) (k + 4).

(** Leaving the loop, [k] drain waits, return. *)
Definition sched_drain (k : nat) : list choice := repeat (Main true) (k + 2).

(** One port, scanned to the end. *)
Definition sched_one_port : list choice :=
  sched_launch ++ sched_thread 0 os_accept 7 ++ sched_drain 1.

(** One port whose [malloc] fails. *)
Definition sched_malloc_fails : list choice :=
  [Main true; Main true; Main true; Main false] ++ sched_drain 1.

(** Two ports probed side by side: the second thread is launched while
    the first is inside [scan_port]. *)
Definition sched_two_ports : list choice :=
  sched_launch ++ repeat (Thread 0 os_accept) 3
  ++ [Main true; Main true; Main true]
  ++ repeat (Thread 1 os_silent) 4.

(** The state in which a run with an invalid port range ends. *)
Definition failed_validation : state :=
  {| st_pc := PExit EXIT_FAILURE; semaphore := None; threads := [];
     log := [AStderr ("Invalid port range" ++ newline)%string] |}.

(** Where those schedules lead. *)
Definition final_of (cfg : config) (sched : list choice) : state :=
  match run cfg sched initial_state with
  | Some s => s
  | None => initial_state
  end.

Definition done_one_port : state :=
  Eval vm_compute in final_of cfg_one_port sched_one_port.

Definition done_malloc_fails : state :=
  Eval vm_compute in final_of cfg_one_port sched_malloc_fails.

Definition done_zero_timeout : state :=
  Eval vm_compute in final_of cfg_zero_timeout sched_one_port.

Definition after_malloc : state :=
  Eval vm_compute in
    final_of cfg_two_ports [Main true; Main true; Main true].

Definition side_by_side : state :=
  Eval vm_compute in final_of cfg_two_ports sched_two_ports.

Definition stuck_zero_concurrency : state :=
  Eval vm_compute in final_of cfg_zero_concurrency [Main true; Main true].

(** ** The claims of the specification that the code does not meet,
       as they are stated *)

(** A complete run gives one result for every port of the range. *)
Definition one_result_per_port (cfg : config) (s : state) : Prop :=
  forall q, start_port cfg <= q <= end_port cfg -> results q s = 1%nat.

(** A configuration with a timeout or a concurrency limit that is not
    positive is turned down before anything is probed. *)
Definition rejected_before_probing (cfg : config) : Prop :=
  forall s, reachable cfg s ->
    (forall st, st_pc s = PExit st -> st <> 0) /\
    forall q, acquires q s = 0%nat /\ probe_events q s = 0%nat.

(** ** Observations on a probe trace *)

Definition is_socket (e : event) : bool :=
  match e with EvSocket _ => true | _ => false end.

Definition is_connect (e : event) : bool :=
  match e with EvConnect _ _ _ => true | _ => false end.

Definition is_select (e : event) : bool :=
  match e with EvSelect _ _ _ => true | _ => false end.

(** Whether an event works on descriptor [fd], closing included.  A
    [select] whose set was overrun may work on any descriptor. *)
Definition touches (fd : Z) (e : event) : bool :=
  uses_fd fd e || is_close fd e.

(** The system calls of a trace, without what it prints. *)
Definition syscalls (t : list event) : list event :=
  filter (fun e => negb (is_output e)) t.

(** ** A bound on the length of a run *)

(** Steps the dispatcher can still take, with for every port it may
    launch the steps of the thread; unlike [main_fuel] it is never
    negative before the loop, whatever the configuration. *)
Definition main_left (cfg : config) (pc : main_pc) : Z :=
  let drain i := concurrency cfg - i + 1 in
  let loop p := (end_port cfg + 1 - p) * 16 + drain 0 + 1 in
  match pc with
  | PValidate => Z.max 0 (loop (start_port cfg)) + 2
  | PSemOpen => Z.max 0 (loop (start_port cfg)) + 1
  | PLoop p => loop p
  | PMalloc p => loop p - 1
  | PCreate t => loop (task_port t) - 2
  | PDrain i => drain i
  | PExit _ => 0
  end.

Definition steps_left (cfg : config) (s : state) : Z :=
  main_left cfg (st_pc s) + Z.of_nat (threads_fuel (threads s)).

(** No run is longer than this: 16 steps for every port, one for every
    slot of the drain loop and four around them. *)
Definition steps_bound (cfg : config) : nat :=
  Z.to_nat
    (Z.max 0 ((end_port cfg + 1 - start_port cfg) * 16 + concurrency cfg + 2)
     + 2).

(** ** The probe of one port in the log *)

(** The events of the probe of port [q], in the order of the log. *)
Fixpoint events_of (q : Z) (l : list action) : list event :=
  match l with
  | [] => []
  | ASys p e :: l' => if p =? q then e :: events_of q l' else events_of q l'
  | _ :: l' => events_of q l'
  end.

(** The values [scan_port] returned for port [q]. *)
Fixpoint returned (q : Z) (l : list action) : list Z :=
  match l with
  | [] => []
  | AReturn p r :: l' => if p =? q then r :: returned q l' else returned q l'
  | _ :: l' => returned q l'
  end.

(** The log of a thread that is inside [scan_port] holds, for its port,
    what the thread has done so far. *)
Definition trace_ok (cfg : config) (s : state) : Prop :=
  forall q,
    (forall m th, nth_error (threads s) m = Some th ->
       task_port (th_task th) = q ->
       match th_pc th with
       | WCall => events_of q (log s) = []
       | WScan done _ _ => events_of q (log s) = done
       | _ => True
       end) /\
    ((1 <= results q s)%nat ->
     exists os ret,
       scan_port os (strncpy63 (ip cfg)) q (timeout_sec cfg) (verbose cfg)
       = (events_of q (log s), ret) /\
       returned q (log s) = [ret]).

(** ** The option loop of [main] (lines 120-153) *)

(** What one turn of [getopt] gives to the switch: the option character
    and [optarg]. *)
Record getopt_result : Type := {
  opt : ascii;
  optarg : string
}.

(** Lines 120-125. *)
Definition default_config : config :=
  {| ip := "127.0.0.1"; start_port := 1; end_port := 1024; timeout_sec := 1;
     concurrency := 50; verbose := false |}.

(** The switch of lines 129-152; [None] is the default branch, which
    prints the usage line and exits.  [atoi] is the function of the C
    library. *)
Definition switch (atoi : string -> Z) (cfg : config) (o : getopt_result)
    : option config :=
  let c := opt o in
  if (c =? "h")%char then
    Some {| ip := strncpy63 (optarg o); start_port := start_port cfg;
            end_port := end_port cfg; timeout_sec := timeout_sec cfg;
            concurrency := concurrency cfg; verbose := verbose cfg |}
  else if (c =? "s")%char then
    Some {| ip := ip cfg; start_port := atoi (optarg o);
            end_port := end_port cfg; timeout_sec := timeout_sec cfg;
            concurrency := concurrency cfg; verbose := verbose cfg |}
  else if (c =? "e")%char then
    Some {| ip := ip cfg; start_port := start_port cfg;
            end_port := atoi (optarg o); timeout_sec := timeout_sec cfg;
            concurrency := concurrency cfg; verbose := verbose cfg |}
  else if (c =? "t")%char then
    Some {| ip := ip cfg; start_port := start_port cfg;
            end_port := end_port cfg; timeout_sec := atoi (optarg o);
            concurrency := concurrency cfg; verbose := verbose cfg |}
  else if (c =? "c")%char then
    Some {| ip := ip cfg; start_port := start_port cfg;
            end_port := end_port cfg; timeout_sec := timeout_sec cfg;
            concurrency := atoi (optarg o); verbose := verbose cfg |}
  else if (c =? "v")%char then
    Some {| ip := ip cfg; start_port := start_port cfg;
            end_port := end_port cfg; timeout_sec := timeout_sec cfg;
            concurrency := concurrency cfg; verbose := true |}
  else None.

(** The loop of line 128 over what [getopt] returns, turn after turn. *)
Fixpoint getopt_loop (atoi : string -> Z) (opts : list getopt_result)
    (cfg : config) : option config :=
  match opts with
  | [] => Some cfg
  | o :: opts' =>
      match switch atoi cfg o with
      | Some cfg' => getopt_loop atoi opts' cfg'
      | None => None
      end
  end.

Definition parse_args (atoi : string -> Z) (opts : list getopt_result)
    : option config :=
  getopt_loop atoi opts default_config.

(** Lines 150-151. *)
Definition usage_exit (argv0 : string) : state :=
  {| st_pc := PExit EXIT_FAILURE; semaphore := None; threads := [];
     log := [AStderr ("Usage: " ++ argv0 ++
               " -h ip -s start_port -e end_port -t timeout_sec" ++
               " -c concurrency -v" ++ newline)%string] |}.

(** The states of [main] started on a command line. *)
Definition main_states (atoi : string -> Z) (argv0 : string)
    (opts : list getopt_result) (s : state) : Prop :=
  match parse_args atoi opts with
  | Some cfg => reachable cfg s
  | None => s = usage_exit argv0
  end.

(** The option characters of the switch. *)
Definition known_option (c : ascii) : bool :=
  ((c =? "h") || (c =? "s") || (c =? "e") || (c =? "t") || (c =? "c")
   || (c =? "v"))%char.

(** The argument of the last option [c] of a command line. *)
Fixpoint last_arg (c : ascii) (opts : list getopt_result) : option string :=
  match opts with
  | [] => None
  | o :: opts' =>
      match last_arg c opts' with
      | Some a => Some a
      | None => if (opt o =? c)%char then Some (optarg o) else None
      end
  end.

(** A stand-in for [atoi] in the examples: the decimal digits at the
    head of the string, brought into the range of [int]. *)
Fixpoint leading_digits (s : string) (acc : Z) : Z :=
  match s with
  | EmptyString => acc
  | String c s' =>
      let d := Z.of_nat (nat_of_ascii c) - 48 in
      if (0 <=? d) && (d <=? 9) then leading_digits s' (acc * 10 + d)
      else acc
  end.

Definition atoi_digits (s : string) : Z :=
  (leading_digits s 0 + 2 ^ 31) mod 2 ^ 32 - 2 ^ 31.

Definition args_example : list getopt_result :=
  [ {| opt := "s"; optarg := "20" |}; {| opt := "v"; optarg := "" |};
    {| opt := "e"; optarg := "25" |}; {| opt := "s"; optarg := "22" |} ].

(** The command line [-s 80 -e 80 -c 1]. *)
Definition args_one_port : list getopt_result :=
  [ {| opt := "s"; optarg := "80" |}; {| opt := "e"; optarg := "80" |};
    {| opt := "c"; optarg := "1" |} ].

(** A probe whose descriptor did not fit its descriptor set: FD_SET wrote
    outside the set (line 64), after which C gives no meaning to the
    execution. *)
Definition is_overrun (a : action) : bool :=
  match a with
  | ASys _ (EvSelect _ None _) => true
  | _ => false
  end.

Definition overran (s : state) : bool := existsb is_overrun (log s).

(** ** Lemmas on lists *)

Lemma countb_app {A : Type} (f : A -> bool) (l1 l2 : list A) :
  countb f (l1 ++ l2) = (countb f l1 + countb f l2)%nat.
Proof.
  induction l1 as [|x l1 IH]; simpl; [reflexivity|].
  rewrite IH. lia.
Qed.

Lemma countb_replace_nth {A : Type} (f : A -> bool) (n : nat) (x y : A) l :
  nth_error l n = Some y ->
  (countb f (replace_nth n x l) + (if f y then 1 else 0) =
   countb f l + (if f x then 1 else 0))%nat.
Proof.
  revert n; induction l as [|z l IH]; intros [|n] H; simpl in *;
    try discriminate.
  - injection H as ->. lia.
  - specialize (IH _ H). lia.
Qed.

Lemma countb_remove_nth {A : Type} (f : A -> bool) (n : nat) (y : A) l :
  nth_error l n = Some y ->
  (countb f (remove_nth n l) + (if f y then 1 else 0) = countb f l)%nat.
Proof.
  revert n; induction l as [|z l IH]; intros [|n] H; simpl in *;
    try discriminate.
  - injection H as ->. lia.
  - specialize (IH _ H). lia.
Qed.

Lemma countb_nth_error {A : Type} (f : A -> bool) (n : nat) (y : A) l :
  nth_error l n = Some y -> f y = true -> (1 <= countb f l)%nat.
Proof.
  revert n; induction l as [|z l IH]; intros [|n] H Hf; simpl in *;
    try discriminate.
  - injection H as ->. rewrite Hf. lia.
  - specialize (IH _ H Hf). lia.
Qed.

Lemma countb_zero_Forall {A : Type} (f : A -> bool) (l : list A) :
  countb f l = 0%nat <-> Forall (fun x => f x = false) l.
Proof.
  induction l as [|x l IH]; simpl.
  - split; auto.
  - split.
    + intros H. destruct (f x) eqn:E; [lia|].
      constructor; [assumption|]. apply IH. lia.
    + intros H. inversion H as [|? ? Hx Hl]; subst.
      rewrite Hx. apply IH in Hl. lia.
Qed.

Lemma Forall_replace_nth {A : Type} (P : A -> Prop) (n : nat) (x : A) l :
  Forall P l -> P x -> Forall P (replace_nth n x l).
Proof.
  intros Hl Hx. revert n.
  induction Hl as [|z l Hz Hl IH]; intros [|n]; simpl; auto.
Qed.

Lemma Forall_remove_nth {A : Type} (P : A -> Prop) (n : nat) l :
  Forall P l -> Forall P (remove_nth n l).
Proof.
  intros Hl. revert n.
  induction Hl as [|z l Hz Hl IH]; intros [|n]; simpl; auto.
Qed.

Lemma nth_error_Forall {A : Type} (P : A -> Prop) (n : nat) (x : A) l :
  Forall P l -> nth_error l n = Some x -> P x.
Proof.
  intros Hl H. rewrite Forall_forall in Hl.
  apply Hl. eapply nth_error_In; eassumption.
Qed.

Lemma flat_map_nil_Forall {A B : Type} (f : A -> list B) (l : list A) :
  Forall (fun x => f x = []) l -> flat_map f l = [].
Proof.
  induction 1 as [|x l Hx Hl IH]; simpl; [reflexivity|].
  rewrite Hx, IH. reflexivity.
Qed.

Lemma zrange_nil (a : Z) : zrange a a = [].
Proof. unfold zrange. rewrite Z.sub_diag. reflexivity. Qed.

Lemma zrange_snoc (a b : Z) :
  a <= b -> zrange a (b + 1) = zrange a b ++ [b].
Proof.
  intros H. unfold zrange.
  replace (Z.to_nat (b + 1 - a)) with (S (Z.to_nat (b - a))) by lia.
  rewrite seq_S, map_app. simpl. do 2 f_equal. lia.
Qed.

Lemma zrange_In (a b q : Z) : In q (zrange a b) <-> a <= q < b.
Proof.
  unfold zrange. rewrite in_map_iff. split.
  - intros [k [<- Hk]]. apply in_seq in Hk. lia.
  - intros H. exists (Z.to_nat (q - a)). split; [lia|].
    apply in_seq. lia.
Qed.

Lemma zrange_length (a b : Z) : List.length (zrange a b) = Z.to_nat (b - a).
Proof. unfold zrange. rewrite length_map, length_seq. reflexivity. Qed.

Lemma acquired_app (l1 l2 : list action) :
  acquired (l1 ++ l2) = acquired l1 ++ acquired l2.
Proof.
  induction l1 as [|a l1 IH]; simpl; [reflexivity|].
  destruct a; simpl; rewrite IH; reflexivity.
Qed.

(** Comparison tests become hypotheses for [lia]. *)
Ltac cases_on_tests :=
  repeat rewrite Z.gtb_ltb in *;
  repeat match goal with
    | |- context [?a =? ?b] => destruct (Z.eqb_spec a b)
    | |- context [?a <? ?b] => destruct (Z.ltb_spec a b)
    | |- context [?a <=? ?b] => destruct (Z.leb_spec a b)
    | H : context [?a =? ?b] |- _ => destruct (Z.eqb_spec a b)
    | H : context [?a <? ?b] |- _ => destruct (Z.ltb_spec a b)
    | H : context [?a <=? ?b] |- _ => destruct (Z.leb_spec a b)
    end.

(** ** The invariant is kept by every step *)

Section Invariants.

Variable cfg : config.
Hypothesis cfg_int : int_config cfg.

Lemma base_inv_initial : base_inv cfg initial_state.
Proof. split; simpl; auto. red. simpl. auto. Qed.

Lemma to_unsigned_small :
  to_unsigned (concurrency cfg) <= SEM_VALUE_MAX ->
  to_unsigned (concurrency cfg) = concurrency cfg /\ 0 <= concurrency cfg.
Proof.
  destruct cfg_int as (_ & _ & _ & Hc). unfold is_int in Hc.
  unfold to_unsigned, SEM_VALUE_MAX. intros H.
  destruct (Z.neg_nonneg_cases (concurrency cfg)) as [Hn|Hp].
  - exfalso.
    assert (E : concurrency cfg mod 2 ^ 32 = concurrency cfg + 2 ^ 32).
    { symmetry. apply Z.mod_unique with (q := -1); lia. }
    lia.
  - rewrite Z.mod_small by lia. lia.
Qed.

Lemma to_unsigned_negative :
  concurrency cfg < 0 ->
  (to_unsigned (concurrency cfg) <=? SEM_VALUE_MAX) = false.
Proof.
  intros H. apply Z.leb_gt.
  destruct (Z.le_gt_cases (to_unsigned (concurrency cfg)) SEM_VALUE_MAX)
    as [Hle|Hgt]; [|lia].
  apply to_unsigned_small in Hle. lia.
Qed.

Ltac sem_facts :=
  match goal with
  | H : match ?sem with Some _ => _ | None => _ end |- _ =>
      destruct sem as [?v|];
      [ destruct H as (? & ? & ?) | destruct H as (? & ?) ];
      simpl in *; try discriminate
  end.

Ltac arith_goal :=
  unfold sem_ok, in_flight, invalid_range in *; simpl in *;
  rewrite ?countb_app; simpl;
  cases_on_tests; simpl in *; try discriminate;
  repeat split; auto; try lia.

Lemma main_step_base ok s s' :
  base_inv cfg s -> main_step cfg ok s = Some s' -> base_inv cfg s'.
Proof.
  intros [Hpc Hsem Hth] Hstep.
  destruct s as [pc sem ths lg].
  unfold main_step, goto, record, sem_post, set_threads in Hstep.
  unfold sem_ok, in_flight, sem_wait in *. simpl in *.
  destruct pc; simpl in *.
  - (* PValidate *)
    sem_facts.
    destruct (invalid_range cfg) eqn:Hr; injection Hstep as <-;
      (split; [simpl; auto | unfold sem_ok; simpl; auto | simpl; auto]).
  - (* PSemOpen *)
    sem_facts. subst ths.
    destruct (ok && _) eqn:Hok; injection Hstep as <-.
    + apply andb_prop in Hok. destruct Hok as [_ Hle].
      apply Z.leb_le in Hle. apply to_unsigned_small in Hle.
      destruct Hle as [-> Hc].
      split; simpl; [arith_goal | arith_goal | constructor].
    + split; simpl; [auto | arith_goal | auto].
  - (* PLoop *)
    destruct Hpc as [Hr Hp]. sem_facts.
    destruct (port <=? end_port cfg) eqn:Hle.
    + destruct (v >? 0) eqn:Hv; [|discriminate].
      injection Hstep as <-.
      split; simpl; [arith_goal | arith_goal | assumption].
    + injection Hstep as <-.
      split; simpl; [arith_goal | arith_goal | assumption].
  - (* PMalloc *)
    destruct Hpc as [Hr Hp]. sem_facts.
    destruct ok; injection Hstep as <-;
      (split; simpl; [arith_goal | arith_goal | assumption]).
  - (* PCreate *)
    destruct Hpc as (Hr & Ht & Hp). sem_facts.
    destruct ok; injection Hstep as <-;
      (split; simpl; [arith_goal | arith_goal | ]); try assumption.
    apply Forall_app. split; [assumption|].
    constructor; [|constructor]. red. simpl. auto.
  - (* PDrain *)
    destruct Hpc as [Hr Hp]. sem_facts.
    destruct (i <? concurrency cfg) eqn:Hlt.
    + destruct (v >? 0) eqn:Hv; [|discriminate].
      injection Hstep as <-.
      split; simpl; [arith_goal | arith_goal | assumption].
    + injection Hstep as <-.
      split; simpl; [arith_goal | arith_goal | assumption].
  - discriminate.
Qed.

Lemma worker_inversion n os s s' :
  worker n os s = Some s' ->
  exists th,
    nth_error (threads s) n = Some th /\
    (forall st, st_pc s <> PExit st) /\
    st_pc s' = st_pc s /\
    match th_pc th with
    | WCall =>
        exists t ret,
          scan_port os (task_ip (th_task th)) (task_port (th_task th))
            (task_timeout_sec (th_task th)) (task_verbose (th_task th))
          = (t, ret) /\
          semaphore s' = semaphore s /\ log s' = log s /\
          threads s' =
            replace_nth n {| th_task := th_task th; th_pc := WScan [] t ret |}
              (threads s)
    | WScan done (e :: todo) ret =>
        semaphore s' = semaphore s /\
        log s' = log s ++ [ASys (task_port (th_task th)) e] /\
        threads s' =
          replace_nth n
            {| th_task := th_task th; th_pc := WScan (done ++ [e]) todo ret |}
            (threads s)
    | WScan done [] ret =>
        semaphore s' = semaphore s /\
        log s' = log s ++ [AReturn (task_port (th_task th)) ret] /\
        threads s' =
          replace_nth n {| th_task := th_task th; th_pc := WPost |} (threads s)
    | WPost =>
        semaphore s' = option_map (fun v => v + 1) (semaphore s) /\
        log s' = log s ++ [ASemPostWorker (task_port (th_task th))] /\
        threads s' =
          replace_nth n {| th_task := th_task th; th_pc := WFree |} (threads s)
    | WFree =>
        semaphore s' = semaphore s /\ log s' = log s /\
        threads s' = remove_nth n (threads s)
    end.
Proof.
  unfold worker. intros H.
  destruct (nth_error (threads s) n) as [th|] eqn:Hn;
    [|destruct (st_pc s); discriminate].
  exists th. split; [reflexivity|].
  assert (Hpc : forall st, st_pc s <> PExit st).
  { intros st E. rewrite E in H. discriminate. }
  split; [assumption|].
  assert (H' :
    match th_pc th with
    | WCall =>
        let (t, ret) :=
          scan_port os (task_ip (th_task th)) (task_port (th_task th))
            (task_timeout_sec (th_task th)) (task_verbose (th_task th)) in
        Some (set_threads
                (replace_nth n
                   {| th_task := th_task th; th_pc := WScan [] t ret |}
                   (threads s)) s)
    | WScan done [] ret =>
        Some (record [AReturn (task_port (th_task th)) ret]
                (set_threads
                   (replace_nth n {| th_task := th_task th; th_pc := WPost |}
                      (threads s)) s))
    | WScan done (e :: todo) ret =>
        Some (record [ASys (task_port (th_task th)) e]
                (set_threads
                   (replace_nth n
                      {| th_task := th_task th;
                         th_pc := WScan (done ++ [e]) todo ret |}
                      (threads s)) s))
    | WPost =>
        Some (record [ASemPostWorker (task_port (th_task th))]
                (sem_post
                   (set_threads
                      (replace_nth n
                         {| th_task := th_task th; th_pc := WFree |}
                         (threads s)) s)))
    | WFree => Some (set_threads (remove_nth n (threads s)) s)
    end = Some s').
  { destruct (st_pc s); try assumption. exfalso. eapply Hpc. reflexivity. }
  clear H.
  destruct (th_pc th) as [|done [|e todo] ret| |].
  - destruct (scan_port _ _ _ _ _) as [t ret].
    injection H' as <-. simpl. split; [reflexivity|].
    exists t, ret. auto.
  - injection H' as <-. simpl. auto.
  - injection H' as <-. simpl. auto.
  - injection H' as <-. simpl. auto.
  - injection H' as <-. simpl. auto.
Qed.

Lemma worker_base n os s s' :
  base_inv cfg s -> worker n os s = Some s' -> base_inv cfg s'.
Proof.
  intros [Hpc Hsem Hth] Hstep.
  apply worker_inversion in Hstep.
  destruct Hstep as (th & Hn & Hne & Epc & Hcase).
  pose proof (nth_error_Forall _ _ _ _ Hth Hn) as (Htask & Hport & Hscan).
  unfold sem_ok, in_flight in *.
  destruct (semaphore s) as [v|] eqn:Hv;
    [|destruct Hsem as [_ E]; rewrite E in Hn; destruct n; discriminate].
  destruct Hsem as (Hst & Hv0 & Hsum).
  assert (Hh : holds_slot th
               = match th_pc th with WFree => false | _ => true end)
    by reflexivity.
  destruct (th_pc th) as [|done [|e todo] ret| |] eqn:Eth.
  - destruct Hcase as (t & ret & Hsp & Es & El & Et).
    pose proof (countb_replace_nth holds_slot n
      {| th_task := th_task th; th_pc := WScan [] t ret |} th _ Hn) as Hc.
    rewrite Hh in Hc. simpl in Hc.
    split; [rewrite Epc; assumption| |].
    + unfold sem_ok, in_flight. rewrite Es, Epc, Et. repeat split; auto; lia.
    + rewrite Et. apply Forall_replace_nth; [assumption|].
      red. simpl. split; [assumption | split; [assumption|]].
      exists os. assumption.
  - destruct Hcase as (Es & El & Et).
    pose proof (countb_replace_nth holds_slot n
      {| th_task := th_task th; th_pc := WPost |} th _ Hn) as Hc.
    rewrite Hh in Hc. simpl in Hc.
    split; [rewrite Epc; assumption| |].
    + unfold sem_ok, in_flight. rewrite Es, Epc, Et. repeat split; auto; lia.
    + rewrite Et. apply Forall_replace_nth; [assumption|].
      red. simpl. split; [assumption | split; [assumption | exact I]].
  - destruct Hcase as (Es & El & Et).
    pose proof (countb_replace_nth holds_slot n
      {| th_task := th_task th; th_pc := WScan (done ++ [e]) todo ret |}
      th _ Hn) as Hc.
    rewrite Hh in Hc. simpl in Hc.
    split; [rewrite Epc; assumption| |].
    + unfold sem_ok, in_flight. rewrite Es, Epc, Et. repeat split; auto; lia.
    + rewrite Et. apply Forall_replace_nth; [assumption|].
      red. simpl. split; [assumption | split; [assumption|]].
      destruct Hscan as [os' Hos]. exists os'.
      rewrite <- app_assoc. assumption.
  - destruct Hcase as (Es & El & Et).
    pose proof (countb_replace_nth holds_slot n
      {| th_task := th_task th; th_pc := WFree |} th _ Hn) as Hc.
    rewrite Hh in Hc. simpl in Hc.
    split; [rewrite Epc; assumption| |].
    + unfold sem_ok, in_flight. rewrite Es, Epc, Et. simpl.
      repeat split; auto; lia.
    + rewrite Et. apply Forall_replace_nth; [assumption|].
      red. simpl. split; [assumption | split; [assumption | exact I]].
  - destruct Hcase as (Es & El & Et).
    pose proof (countb_remove_nth holds_slot n th _ Hn) as Hc.
    rewrite Hh in Hc. simpl in Hc.
    split; [rewrite Epc; assumption| |].
    + unfold sem_ok, in_flight. rewrite Es, Epc, Et.
      repeat split; auto; lia.
    + rewrite Et. apply Forall_remove_nth. assumption.
Qed.

Lemma step_base c s s' :
  base_inv cfg s -> step cfg c s = Some s' -> base_inv cfg s'.
Proof.
  destruct c as [ok|n os]; simpl.
  - apply main_step_base.
  - apply worker_base.
Qed.

Lemma counts_ok_initial : counts_ok cfg initial_state.
Proof.
  intros q. unfold acquires, releases_main, releases_worker, spawns, results,
    probing_for, in_flight_for, probe_events. simpl.
  cases_on_tests; simpl; repeat split; lia.
Qed.

Ltac unfold_counts :=
  unfold acquires, releases_main, releases_worker, spawns, results,
    probing_for, in_flight_for, probe_events in *.

Ltac counts_goal :=
  simpl in *; rewrite ?countb_app; simpl;
  cases_on_tests; simpl in *; try discriminate;
  repeat split; try lia.

Lemma main_step_counts ok s s' :
  base_inv cfg s -> counts_ok cfg s -> main_step cfg ok s = Some s' ->
  counts_ok cfg s'.
Proof.
  intros [Hpc Hsem Hth] Hcnt Hstep q.
  specialize (Hcnt q). destruct Hcnt as (Ha & Hb & Hc & Hd & Hf).
  destruct s as [pc sem ths lg].
  unfold main_step, goto, record, sem_post, set_threads, sem_wait in Hstep.
  unfold sem_ok, in_flight in *. unfold_counts. simpl in *.
  destruct pc; simpl in *.
  - destruct (invalid_range cfg); injection Hstep as <-; counts_goal.
  - destruct (ok && _); injection Hstep as <-; counts_goal.
  - destruct Hpc as [Hr Hp].
    destruct (port <=? end_port cfg) eqn:Hle.
    + destruct sem as [v|]; [|discriminate]. simpl in Hstep.
      destruct (v >? 0); [|discriminate].
      injection Hstep as <-. counts_goal.
    + injection Hstep as <-. counts_goal.
  - destruct Hpc as [Hr Hp].
    destruct ok; injection Hstep as <-; counts_goal.
  - destruct Hpc as (Hr & Ht & Hp).
    destruct ok; injection Hstep as <-; unfold for_port in *; counts_goal.
  - destruct Hpc as [Hr Hp].
    destruct (i <? concurrency cfg) eqn:Hlt.
    + destruct sem as [v|]; [|discriminate]. simpl in Hstep.
      destruct (v >? 0); [|discriminate].
      injection Hstep as <-. counts_goal.
    + injection Hstep as <-. counts_goal.
  - discriminate.
Qed.

Lemma holds_slot_eq (th : thread) :
  holds_slot th = match th_pc th with WFree => false | _ => true end.
Proof. reflexivity. Qed.

Lemma probing_eq (th : thread) :
  probing th = match th_pc th with WCall | WScan _ _ _ => true | _ => false end.
Proof. reflexivity. Qed.

(** The effect on the per-port counts of putting [x] in the place of the
    [n]-th thread. *)
Ltac count_replaced q Hn x :=
  let H1 := fresh "Hslot" in
  let H2 := fresh "Hprobe" in
  pose proof (countb_replace_nth (fun th => for_port q th && holds_slot th)
                _ x _ _ Hn) as H1;
  pose proof (countb_replace_nth (fun th => for_port q th && probing th)
                _ x _ _ Hn) as H2;
  cbv beta in H1, H2.

Ltac count_removed q Hn :=
  let H1 := fresh "Hslot" in
  let H2 := fresh "Hprobe" in
  pose proof (countb_remove_nth (fun th => for_port q th && holds_slot th)
                _ _ _ Hn) as H1;
  pose proof (countb_remove_nth (fun th => for_port q th && probing th)
                _ _ _ Hn) as H2;
  cbv beta in H1, H2.

Ltac worker_counts_goal Eth Et El :=
  unfold_counts; unfold for_port in *;
  rewrite ?holds_slot_eq, ?probing_eq in *; rewrite ?Eth in *; simpl in *;
  rewrite Et, El; rewrite ?countb_app; simpl;
  cases_on_tests; simpl in *; repeat split; try lia.

Lemma worker_counts n os s s' :
  base_inv cfg s -> counts_ok cfg s -> worker n os s = Some s' ->
  counts_ok cfg s'.
Proof.
  intros [Hpc Hsem Hth] Hcnt Hstep q.
  specialize (Hcnt q). destruct Hcnt as (Ha & Hb & Hc & Hd & Hf).
  apply worker_inversion in Hstep.
  destruct Hstep as (th & Hn & Hne & Epc & Hcase).
  rewrite Epc.
  assert (Hp1 : probing th = true ->
                task_port (th_task th) = q -> (1 <= probing_for q s)%nat).
  { intros Hp Hq. unfold probing_for.
    apply countb_nth_error with (n := n) (y := th); [assumption|].
    unfold for_port. rewrite Hq, Z.eqb_refl, Hp. reflexivity. }
  rewrite probing_eq in Hp1.
  destruct (th_pc th) as [|done [|e todo] ret| |] eqn:Eth.
  - destruct Hcase as (t & ret & Hsp & Es & El & Et).
    count_replaced q Hn {| th_task := th_task th; th_pc := WScan [] t ret |}.
    worker_counts_goal Eth Et El.
  - destruct Hcase as (Es & El & Et).
    count_replaced q Hn {| th_task := th_task th; th_pc := WPost |}.
    worker_counts_goal Eth Et El.
  - destruct Hcase as (Es & El & Et).
    count_replaced q Hn
      {| th_task := th_task th; th_pc := WScan (done ++ [e]) todo ret |}.
    worker_counts_goal Eth Et El.
  - destruct Hcase as (Es & El & Et).
    count_replaced q Hn {| th_task := th_task th; th_pc := WFree |}.
    worker_counts_goal Eth Et El.
  - destruct Hcase as (Es & El & Et).
    count_removed q Hn.
    worker_counts_goal Eth Et El.
Qed.

Lemma step_counts c s s' :
  base_inv cfg s -> counts_ok cfg s -> step cfg c s = Some s' ->
  counts_ok cfg s'.
Proof.
  destruct c as [ok|n os]; simpl.
  - apply main_step_counts.
  - apply worker_counts.
Qed.

Lemma probing_le_in_flight q s : (probing_for q s <= in_flight_for q s)%nat.
Proof.
  unfold probing_for, in_flight_for.
  induction (threads s) as [|th l IH]; simpl; [lia|].
  rewrite holds_slot_eq, probing_eq.
  destruct (for_port q th), (th_pc th); simpl; lia.
Qed.

Lemma main_step_order ok s s' :
  base_inv cfg s -> order_ok cfg s -> main_step cfg ok s = Some s' ->
  order_ok cfg s'.
Proof.
  intros [Hpc Hsem Hth] Hord Hstep.
  destruct s as [pc sem ths lg]. unfold order_ok in *.
  unfold main_step, goto, record, sem_post, set_threads, sem_wait in Hstep.
  simpl in *.
  destruct pc; simpl in *.
  - destruct (invalid_range cfg); injection Hstep as <-; simpl;
      rewrite ?acquired_app, ?app_nil_r; assumption.
  - destruct (ok && _); injection Hstep as <-; simpl;
      rewrite ?acquired_app, ?app_nil_r; assumption.
  - destruct Hpc as [Hr Hp].
    destruct (port <=? end_port cfg) eqn:Hle.
    + destruct sem as [v|]; [|discriminate]. simpl in Hstep.
      destruct (v >? 0); [|discriminate].
      injection Hstep as <-. simpl.
      rewrite acquired_app, Hord, zrange_snoc by lia. reflexivity.
    + injection Hstep as <-. simpl. rewrite Hord.
      apply Z.leb_gt in Hle. f_equal. lia.
  - destruct ok; injection Hstep as <-; simpl;
      rewrite ?acquired_app, ?app_nil_r; assumption.
  - destruct ok; injection Hstep as <-; simpl;
      rewrite ?acquired_app, ?app_nil_r; assumption.
  - destruct (i <? concurrency cfg).
    + destruct sem as [v|]; [|discriminate]. simpl in Hstep.
      destruct (v >? 0); [|discriminate].
      injection Hstep as <-. simpl.
      rewrite acquired_app, app_nil_r. assumption.
    + injection Hstep as <-. simpl.
      rewrite acquired_app, app_nil_r. assumption.
  - discriminate.
Qed.

Lemma worker_order n os s s' :
  order_ok cfg s -> worker n os s = Some s' -> order_ok cfg s'.
Proof.
  intros Hord Hstep. unfold order_ok in *.
  apply worker_inversion in Hstep.
  destruct Hstep as (th & Hn & Hne & Epc & Hcase).
  rewrite Epc.
  destruct (th_pc th) as [|done [|e todo] ret| |].
  - destruct Hcase as (t & ret & Hsp & Es & El & Et). rewrite El. assumption.
  - destruct Hcase as (Es & El & Et).
    rewrite El, acquired_app, app_nil_r. assumption.
  - destruct Hcase as (Es & El & Et).
    rewrite El, acquired_app, app_nil_r. assumption.
  - destruct Hcase as (Es & El & Et).
    rewrite El, acquired_app, app_nil_r. assumption.
  - destruct Hcase as (Es & El & Et). rewrite El. assumption.
Qed.

Lemma main_step_log ok s s' :
  log_ok cfg s -> main_step cfg ok s = Some s' -> log_ok cfg s'.
Proof.
  unfold log_ok. intros Hl Hstep.
  assert (Hx : forall t, Forall (action_ok cfg) t ->
                         Forall (action_ok cfg) (log s ++ t)).
  { intros t Ht. apply Forall_app. auto. }
  destruct s as [pc sem ths lg].
  unfold main_step, goto, record, sem_post, set_threads, sem_wait in Hstep.
  simpl in *.
  destruct pc; simpl in *.
  - destruct (invalid_range cfg); injection Hstep as <-; simpl; auto.
    apply Hx. repeat constructor.
  - destruct (ok && _); injection Hstep as <-; simpl;
      apply Hx; repeat constructor.
  - destruct (port <=? end_port cfg).
    + destruct sem as [v|]; [|discriminate]. simpl in Hstep.
      destruct (v >? 0); [|discriminate].
      injection Hstep as <-. simpl. apply Hx. repeat constructor.
    + injection Hstep as <-. simpl. assumption.
  - destruct ok; injection Hstep as <-; simpl; auto.
    apply Hx. repeat constructor.
  - destruct ok; injection Hstep as <-; simpl; apply Hx; repeat constructor.
  - destruct (i <? concurrency cfg).
    + destruct sem as [v|]; [|discriminate]. simpl in Hstep.
      destruct (v >? 0); [|discriminate].
      injection Hstep as <-. simpl. apply Hx. repeat constructor.
    + injection Hstep as <-. simpl. apply Hx. repeat constructor.
  - discriminate.
Qed.

Lemma worker_log n os s s' :
  base_inv cfg s -> log_ok cfg s -> worker n os s = Some s' -> log_ok cfg s'.
Proof.
  unfold log_ok. intros [Hpc Hsem Hth] Hl Hstep.
  apply worker_inversion in Hstep.
  destruct Hstep as (th & Hn & Hne & Epc & Hcase).
  pose proof (nth_error_Forall _ _ _ _ Hth Hn) as (Htask & Hport & Hscan).
  destruct (th_pc th) as [|done [|e todo] ret| |].
  - destruct Hcase as (t & ret & Hsp & Es & El & Et). rewrite El. assumption.
  - destruct Hcase as (Es & El & Et). rewrite El.
    apply Forall_app. split; [assumption|]. repeat constructor.
  - destruct Hcase as (Es & El & Et). rewrite El.
    apply Forall_app. split; [assumption|].
    constructor; [|constructor]. simpl.
    destruct Hscan as [os' Hos]. exists os'.
    rewrite Htask in Hos. simpl in Hos. rewrite Hos. simpl.
    apply in_or_app. right. left. reflexivity.
  - destruct Hcase as (Es & El & Et). rewrite El.
    apply Forall_app. split; [assumption|]. repeat constructor.
  - destruct Hcase as (Es & El & Et). rewrite El. assumption.
Qed.

(** *** The invariant of a run *)

Lemma inv_initial : inv cfg initial_state.
Proof.
  split.
  - apply base_inv_initial.
  - apply counts_ok_initial.
  - unfold order_ok. simpl. rewrite zrange_nil. reflexivity.
  - constructor.
Qed.

Lemma step_inv c s s' : inv cfg s -> step cfg c s = Some s' -> inv cfg s'.
Proof.
  intros [Hb Hc Ho Hl] Hstep. split.
  - eapply step_base; eassumption.
  - eapply step_counts; eassumption.
  - destruct c; simpl in Hstep.
    + eapply main_step_order; eassumption.
    + eapply worker_order; eassumption.
  - destruct c; simpl in Hstep.
    + eapply main_step_log; eassumption.
    + eapply worker_log; eassumption.
Qed.

Lemma run_inv sched :
  forall s s', inv cfg s -> run cfg sched s = Some s' -> inv cfg s'.
Proof.
  induction sched as [|c sched IH]; simpl; intros s s' Hs Hrun.
  - injection Hrun as <-. assumption.
  - destruct (step cfg c s) as [s1|] eqn:Hstep; [|discriminate].
    eapply IH; [|eassumption]. eapply step_inv; eassumption.
Qed.

Lemma reachable_inv s : reachable cfg s -> inv cfg s.
Proof.
  intros [sched Hrun]. eapply run_inv; [apply inv_initial | eassumption].
Qed.

End Invariants.

(** ** The prober *)

Ltac scan_cases os :=
  unfold scan_port, observable, say;
  rewrite ?Z.gtb_ltb;
  destruct (Z.ltb_spec (socket_ret os) 0); try lia;
  destruct (Z.ltb_spec (connect_ret os) 0);
  [ destruct (Z.eqb_spec (connect_errno os) EINPROGRESS);
    [ destruct (Z.ltb_spec 0 (select_ret os));
      [ destruct (Z.eqb_spec (so_error os) 0) | ] | ] | ].

Lemma scan_port_return_value os a p t v :
  snd (scan_port os a p t v) = 0 \/ snd (scan_port os a p t v) = 1.
Proof.
  unfold scan_port. rewrite ?Z.gtb_ltb.
  destruct (socket_ret os <? 0); [left; reflexivity|].
  destruct (connect_ret os <? 0); [|right; reflexivity].
  destruct (connect_errno os =? EINPROGRESS); [|left; reflexivity].
  destruct (0 <? select_ret os); [|left; reflexivity].
  destruct (so_error os =? 0); [right|left]; reflexivity.
Qed.

(** C8. Whenever [socket] succeeded, [scan_port] closes the descriptor
    exactly once on every path (immediate success, refusal, timeout,
    failure of [select], connect error other than EINPROGRESS): the trace
    of the call leaves no descriptor open, the close comes after every use
    of the descriptor, and only output follows it. *)
Theorem scan_port_closes_socket os a p t v :
  0 <= socket_ret os ->
  let fd := socket_ret os in
  let tr := fst (scan_port os a p t v) in
  open_fds [] tr = [] /\
  countb (is_close fd) tr = 1%nat /\
  exists before after,
    tr = EvSocket fd :: before ++ EvClose fd :: after /\
    Forall (fun e => is_close fd e = false) before /\
    Forall (fun e => is_output e = true) after.
Proof.
  intros Hfd fd tr. subst fd tr.
  scan_cases os;
    assert (Hneg : (socket_ret os <? 0) = false) by (apply Z.ltb_ge; lia);
    simpl;
    (split; [destruct v; simpl; rewrite Hneg; simpl; rewrite Z.eqb_refl;
             reflexivity|]);
    (split; [destruct v; simpl; rewrite ?countb_app; simpl;
             rewrite Z.eqb_refl; reflexivity|]).
  - eexists [_; _; _; _; _], _. simpl. split; [reflexivity|].
    split; [repeat constructor | destruct v; repeat constructor].
  - eexists [_; _; _; _; _], _. simpl. split; [reflexivity|].
    split; [repeat constructor | destruct v; repeat constructor].
  - eexists [_; _; _; _], _. simpl. split; [reflexivity|].
    split; [repeat constructor | destruct v; repeat constructor].
  - eexists [_; _; _], _. simpl. split; [reflexivity|].
    split; [repeat constructor | destruct v; repeat constructor].
  - eexists [_; _; _], _. simpl. split; [reflexivity|].
    split; [repeat constructor | destruct v; repeat constructor].
Qed.

Lemma scan_port_closes_socket_witness :
  0 <= socket_ret os_refuse /\
  open_fds [] (fst (scan_port os_refuse "127.0.0.1" 80 1 true)) = [].
Proof.
  split; [simpl; lia|].
  apply (scan_port_closes_socket os_refuse "127.0.0.1" 80 1 true).
  simpl; lia.
Defined.

(** C3, as amended. For a probe whose connect is in progress, [scan_port]
    tells two outcomes apart, not four: readiness with no pending error
    gives 1 and the "open" line; readiness with a pending error, no
    readiness before the timeout and a failure of the wait all give 0 and
    the same "closed or timeout" line, with no cause. *)
Theorem scan_port_two_outcomes os a p t v :
  0 <= socket_ret os -> connect_ret os < 0 -> connect_errno os = EINPROGRESS ->
  observable (scan_port os a p t v) =
    match spec_outcome os with
    | Open => (say v (EvPrintf (msg_open p)), 1)
    | Closed | Timeout | Error _ => (say v (EvPrintf (msg_closed p)), 0)
    end.
Proof.
  intros Hfd Hres Herr. unfold spec_outcome.
  scan_cases os; try lia; rewrite ?Z.gtb_ltb;
    repeat match goal with
      | |- context [?x <? ?y] => destruct (Z.ltb_spec x y); try lia
      | |- context [?x =? ?y] => destruct (Z.eqb_spec x y); try lia
      end;
    destruct v; reflexivity.
Qed.

Lemma scan_port_two_outcomes_witness :
  observable (scan_port os_silent "127.0.0.1" 80 1 true) =
  ([EvPrintf (msg_closed 80)], 0).
Proof.
  apply (scan_port_two_outcomes os_silent "127.0.0.1" 80 1 true).
  - simpl; lia.
  - simpl; lia.
  - reflexivity.
Defined.

(** C3, as stated, fails: a refused connection, a timeout and a failed
    wait are three different outcomes for the specification, and the
    prober reports all three in the same way. *)
Lemma closed_timeout_error_reported_alike :
  spec_outcome os_refuse = Closed /\
  spec_outcome os_silent = Timeout /\
  spec_outcome os_select_fails = Error "select" /\
  observable (scan_port os_refuse "127.0.0.1" 80 1 true) =
  observable (scan_port os_silent "127.0.0.1" 80 1 true) /\
  observable (scan_port os_refuse "127.0.0.1" 80 1 true) =
  observable (scan_port os_select_fails "127.0.0.1" 80 1 true).
Proof. repeat split; reflexivity. Qed.

Lemma scan_port_quiet os a p t :
  filter is_output (fst (scan_port os a p t false)) = [].
Proof.
  unfold scan_port, say. rewrite ?Z.gtb_ltb.
  destruct (socket_ret os <? 0); [reflexivity|].
  destruct (connect_ret os <? 0); [|reflexivity].
  destruct (connect_errno os =? EINPROGRESS); [|reflexivity].
  destruct (0 <? select_ret os); [|reflexivity].
  destruct (so_error os =? 0); reflexivity.
Qed.

(** ** The dispatcher *)

Lemma in_flight_for_le q s : (in_flight_for q s <= in_flight s)%nat.
Proof.
  unfold in_flight_for, in_flight.
  induction (threads s) as [|th l IH]; simpl; [lia|].
  destruct (for_port q th), (holds_slot th); simpl; lia.
Qed.

Lemma reachable_step cfg c s s' :
  reachable cfg s -> step cfg c s = Some s' -> reachable cfg s'.
Proof.
  intros [sched Hrun] Hstep. exists (sched ++ [c]).
  revert Hrun. generalize initial_state.
  induction sched as [|c0 sched IH]; simpl; intros s0 Hrun.
  - injection Hrun as ->. rewrite Hstep. reflexivity.
  - destruct (step cfg c0 s0); [|discriminate]. apply IH. assumption.
Qed.

Lemma valid_range cfg : valid_config cfg -> invalid_range cfg = false.
Proof.
  intros (H1 & H2 & H3 & _). unfold invalid_range. rewrite !Z.gtb_ltb.
  destruct (Z.ltb_spec (end_port cfg) (start_port cfg)); [lia|].
  destruct (Z.ltb_spec (start_port cfg) 1); [lia|].
  destruct (Z.ltb_spec 65535 (end_port cfg)); [lia|]. reflexivity.
Qed.

Lemma valid_concurrency cfg : valid_config cfg -> 0 < concurrency cfg.
Proof. intros (_ & _ & _ & _ & H). exact H. Qed.

(** Once [main] has returned 0 no thread holds a slot. *)
Lemma exit_quiescent cfg s :
  inv cfg s -> st_pc s = PExit 0 -> semaphore s = Some 0 /\ in_flight s = 0%nat.
Proof.
  intros [[Hpc Hsem Hth] _ _ _] Hexit.
  unfold sem_ok in Hsem. rewrite Hexit in Hsem. simpl in Hsem.
  destruct (semaphore s) as [v|].
  - destruct Hsem as (_ & Hv & Hsum). split; [f_equal|]; lia.
  - destruct Hsem. discriminate.
Qed.

(** What the counts say once [main] has returned 0. *)
Lemma exit_results cfg s :
  inv cfg s -> st_pc s = PExit 0 ->
  forall q, start_port cfg <= q <= end_port cfg ->
    results q s = spawns q s /\
    (spawns q s + releases_main q s = 1)%nat.
Proof.
  intros Hinv Hexit q Hq.
  destruct (exit_quiescent cfg s Hinv Hexit) as [_ Hfl].
  destruct Hinv as [_ Hcnt _ _].
  destruct (Hcnt q) as (Ha & Hb & Hc & Hd & Hf).
  pose proof (in_flight_for_le q s) as Hle.
  pose proof (probing_le_in_flight q s) as Hle'.
  rewrite Hexit in *. simpl in *.
  cases_on_tests; simpl in *; lia.
Qed.

(** ** Progress: a run can always be brought to its end *)

Lemma scan_port_length os a p t v :
  (List.length (fst (scan_port os a p t v)) <= 8)%nat.
Proof.
  unfold scan_port, say.
  destruct (socket_ret os <? 0); [destruct v; simpl; lia|].
  destruct (connect_ret os <? 0); [|destruct v; simpl; lia].
  destruct (connect_errno os =? EINPROGRESS); [|destruct v; simpl; lia].
  destruct (select_ret os >? 0); [|destruct v; simpl; lia].
  destruct (so_error os =? 0); destruct v; simpl; lia.
Qed.

Lemma worker_running n os s :
  (forall st, st_pc s <> PExit st) ->
  worker n os s =
    match nth_error (threads s) n with
    | None => None
    | Some th =>
        let task := th_task th in
        let at_pc pc :=
          set_threads
            (replace_nth n {| th_task := task; th_pc := pc |} (threads s)) s in
        match th_pc th with
        | WCall =>
            let (t, ret) :=
              scan_port os (task_ip task) (task_port task)
                (task_timeout_sec task) (task_verbose task) in
            Some (at_pc (WScan [] t ret))
        | WScan done (e :: todo) ret =>
            Some (record [ASys (task_port task) e]
                    (at_pc (WScan (done ++ [e]) todo ret)))
        | WScan done [] ret =>
            Some (record [AReturn (task_port task) ret] (at_pc WPost))
        | WPost =>
            Some (record [ASemPostWorker (task_port task)]
                    (sem_post (at_pc WFree)))
        | WFree => Some (set_threads (remove_nth n (threads s)) s)
        end
    end.
Proof.
  intros Hne. unfold worker.
  destruct (st_pc s) eqn:E; try reflexivity.
  exfalso. eapply Hne. reflexivity.
Qed.

Lemma thread_fuel_positive th : (1 <= thread_fuel th)%nat.
Proof. unfold thread_fuel. destruct (th_pc th); lia. Qed.

Lemma fuel_thread_replaced cfg s s' th th' rest :
  st_pc s' = st_pc s -> threads s = th :: rest -> threads s' = th' :: rest ->
  (thread_fuel th' < thread_fuel th)%nat -> (fuel cfg s' < fuel cfg s)%nat.
Proof.
  intros Hpc Hs Hs' Hlt. unfold fuel, threads_fuel.
  rewrite Hpc, Hs, Hs'. simpl. lia.
Qed.

Lemma fuel_thread_removed cfg s s' th rest :
  st_pc s' = st_pc s -> threads s = th :: rest -> threads s' = rest ->
  (fuel cfg s' < fuel cfg s)%nat.
Proof.
  intros Hpc Hs Hs'. unfold fuel, threads_fuel.
  rewrite Hpc, Hs, Hs'. simpl.
  pose proof (thread_fuel_positive th). lia.
Qed.

(** The first thread of a state can always move, and that brings the run
    nearer to its end. *)
Lemma thread_progress cfg os s th rest :
  threads s = th :: rest -> (forall st, st_pc s <> PExit st) ->
  exists s',
    step cfg (Thread 0 os) s = Some s' /\
    (fuel cfg s' < fuel cfg s)%nat /\
    st_pc s' = st_pc s /\
    forall q, releases_main q s' = releases_main q s.
Proof.
  intros Hths Hne. simpl. rewrite (worker_running 0 os s Hne).
  rewrite Hths. simpl.
  destruct th as [task pc]. simpl.
  destruct pc as [|done [|e todo] ret| |].
  - pose proof (scan_port_length os (task_ip task) (task_port task)
                  (task_timeout_sec task) (task_verbose task)) as Hlen.
    destruct (scan_port _ _ _ _ _) as [t ret]. simpl in Hlen.
    eexists. split; [reflexivity|]. split; [|split; [reflexivity|]].
    + eapply fuel_thread_replaced; [reflexivity | eassumption | reflexivity |].
      unfold thread_fuel. simpl. lia.
    + intros q. reflexivity.
  - eexists. split; [reflexivity|]. split; [|split; [reflexivity|]].
    + eapply fuel_thread_replaced; [reflexivity | eassumption | reflexivity |].
      unfold thread_fuel. simpl. lia.
    + intros q. unfold releases_main. simpl. rewrite countb_app. simpl. lia.
  - eexists. split; [reflexivity|]. split; [|split; [reflexivity|]].
    + eapply fuel_thread_replaced; [reflexivity | eassumption | reflexivity |].
      unfold thread_fuel. simpl. lia.
    + intros q. unfold releases_main. simpl. rewrite countb_app. simpl. lia.
  - eexists. split; [reflexivity|]. split; [|split; [reflexivity|]].
    + eapply fuel_thread_replaced; [reflexivity | eassumption | reflexivity |].
      unfold thread_fuel. simpl. lia.
    + intros q. unfold releases_main. simpl. rewrite countb_app. simpl. lia.
  - eexists. split; [reflexivity|]. split; [|split; [reflexivity|]].
    + eapply fuel_thread_removed; [reflexivity | eassumption | reflexivity].
    + intros q. reflexivity.
Qed.

Lemma fuel_main_step cfg s s' k :
  threads s = [] -> threads_fuel (threads s') = k ->
  0 <= main_fuel cfg (st_pc s') ->
  main_fuel cfg (st_pc s') + Z.of_nat k < main_fuel cfg (st_pc s) ->
  (fuel cfg s' < fuel cfg s)%nat.
Proof.
  intros Hs Hk Hpos Hlt. unfold fuel. rewrite Hs, Hk.
  unfold threads_fuel. simpl. lia.
Qed.

(** With no thread left, every slot that the dispatcher does not hold is
    in the semaphore, so the dispatcher can move. *)
Lemma main_progress cfg s :
  int_config cfg -> invalid_range cfg = false -> 0 < concurrency cfg ->
  base_inv cfg s -> threads s = [] -> (forall st, st_pc s <> PExit st) ->
  exists s',
    step cfg (Main true) s = Some s' /\
    (fuel cfg s' < fuel cfg s)%nat /\
    (forall st, st_pc s' = PExit st -> st = 0) /\
    forall q, releases_main q s' = releases_main q s.
Proof.
  intros Hint Hr Hc [Hpc Hsem Hth] Hths Hne.
  assert (Hu : to_unsigned (concurrency cfg) = concurrency cfg).
  { destruct Hint as (_ & _ & _ & Hi). unfold is_int in Hi.
    unfold to_unsigned. apply Z.mod_small. lia. }
  assert (Hle : (concurrency cfg <=? SEM_VALUE_MAX) = true).
  { destruct Hint as (_ & _ & _ & Hi). unfold is_int in Hi.
    apply Z.leb_le. unfold SEM_VALUE_MAX. lia. }
  assert (Hrange : start_port cfg <= end_port cfg).
  { unfold invalid_range in Hr. cases_on_tests; simpl in *;
      try discriminate; lia. }
  destruct s as [pc sem ths lg].
  unfold sem_ok, in_flight, releases_main in *.
  simpl in Hpc, Hsem, Hths, Hne. subst ths. simpl in Hsem.
  simpl. unfold main_step, sem_wait, goto, record, sem_post, set_threads.
  cbn [st_pc semaphore threads log].
  destruct pc; cbn [held pc_ok started] in *.
  - rewrite Hr. eexists. split; [reflexivity|].
    split; [|split; [discriminate|reflexivity]].
    eapply fuel_main_step with (k := 0%nat);
      [reflexivity | reflexivity | |];
      unfold main_fuel; cbn [st_pc]; lia.
  - rewrite Hu, Hle. eexists. split; [reflexivity|].
    split; [|split; [discriminate|]].
    + eapply fuel_main_step with (k := 0%nat);
        [reflexivity | reflexivity | |];
        unfold main_fuel; cbn [st_pc]; lia.
    + intros q. cbn [log]. rewrite countb_app. simpl. lia.
  - destruct Hpc as [_ Hp].
    destruct sem as [v|]; [|destruct Hsem; discriminate].
    destruct Hsem as (_ & Hv & Hsum). rewrite Z.gtb_ltb.
    destruct (Z.leb_spec port (end_port cfg)).
    + destruct (Z.ltb_spec 0 v); [|lia]. cbn [option_map].
      eexists. split; [reflexivity|].
      split; [|split; [discriminate|]].
      * eapply fuel_main_step with (k := 0%nat);
          [reflexivity | reflexivity | |];
          unfold main_fuel; cbn [st_pc]; lia.
      * intros q. cbn [log]. rewrite countb_app. simpl. lia.
    + eexists. split; [reflexivity|].
      split; [|split; [discriminate|reflexivity]].
      eapply fuel_main_step with (k := 0%nat);
        [reflexivity | reflexivity | |];
        unfold main_fuel; cbn [st_pc]; lia.
  - destruct Hpc as [_ Hp].
    eexists. split; [reflexivity|].
    split; [|split; [discriminate|reflexivity]].
    eapply fuel_main_step with (k := 0%nat);
      [reflexivity | reflexivity | |];
      unfold main_fuel; cbn [st_pc make_task task_port]; lia.
  - destruct Hpc as (_ & _ & Hp).
    eexists. split; [reflexivity|].
    split; [|split; [discriminate|]].
    + eapply fuel_main_step with (k := 12%nat);
        [reflexivity | reflexivity | |];
        unfold main_fuel; cbn [st_pc]; lia.
    + intros q. cbn [log]. rewrite countb_app. simpl. lia.
  - destruct Hpc as [_ Hp].
    destruct sem as [v|]; [|destruct Hsem; discriminate].
    destruct Hsem as (_ & Hv & Hsum). rewrite Z.gtb_ltb.
    destruct (Z.ltb_spec i (concurrency cfg)).
    + destruct (Z.ltb_spec 0 v); [|lia]. cbn [option_map].
      eexists. split; [reflexivity|].
      split; [|split; [discriminate|]].
      * eapply fuel_main_step with (k := 0%nat);
          [reflexivity | reflexivity | |];
          unfold main_fuel; cbn [st_pc]; lia.
      * intros q. cbn [log]. rewrite countb_app. simpl. lia.
    + eexists. split; [reflexivity|].
      split; [|split].
      * eapply fuel_main_step with (k := 0%nat);
          [reflexivity | reflexivity | |];
          unfold main_fuel; cbn [st_pc]; lia.
      * intros st E. injection E as <-. reflexivity.
      * intros q. cbn [log]. rewrite countb_app. simpl. lia.
  - exfalso. eapply Hne. reflexivity.
Qed.

(** From a state in which [main] has not exited, some schedule in which
    no allocation and no thread creation fails makes [main] return 0. *)
Lemma run_can_finish cfg :
  int_config cfg -> invalid_range cfg = false -> 0 < concurrency cfg ->
  forall n s,
    (fuel cfg s <= n)%nat -> inv cfg s -> (forall st, st_pc s <> PExit st) ->
    exists sched s',
      run cfg sched s = Some s' /\ st_pc s' = PExit 0 /\
      forall q, releases_main q s' = releases_main q s.
Proof.
  intros Hint Hr Hc.
  induction n as [|n IH]; intros s Hfuel Hinv Hne.
  - exfalso.
    destruct (threads s) as [|th rest] eqn:Hths.
    + destruct (main_progress cfg s Hint Hr Hc (inv_base _ _ Hinv) Hths Hne)
        as (s' & _ & Hlt & _). lia.
    + destruct (thread_progress cfg os_accept s th rest Hths Hne)
        as (s' & _ & Hlt & _).
      lia.
  - assert (Hstep : exists c s1,
        step cfg c s = Some s1 /\ (fuel cfg s1 < fuel cfg s)%nat /\
        (forall st, st_pc s1 = PExit st -> st = 0) /\
        forall q, releases_main q s1 = releases_main q s).
    { destruct (threads s) as [|th rest] eqn:Hths.
      - destruct (main_progress cfg s Hint Hr Hc (inv_base _ _ Hinv) Hths Hne)
          as (s1 & H1 & H2 & H3 & H4).
        exists (Main true), s1. auto.
      - destruct (thread_progress cfg os_accept s th rest Hths Hne)
          as (s1 & H1 & H2 & H3 & H4).
        exists (Thread 0 os_accept), s1.
        split; [assumption|]. split; [assumption|]. split; [|assumption].
        intros st E. rewrite H3 in E. exfalso. eapply Hne. eassumption. }
    destruct Hstep as (c & s1 & Hs1 & Hlt & Hexit & Hrel).
    pose proof (step_inv cfg Hint c s s1 Hinv Hs1) as Hinv1.
    destruct (st_pc s1) as [| | | | | |st] eqn:Epc.
    7: { exists [c], s1. simpl. rewrite Hs1.
         split; [reflexivity|]. split; [|assumption].
         rewrite Epc. f_equal. apply Hexit. reflexivity. }
    all: destruct (IH s1) as (sched & s' & Hrun & Hend & Hrel');
      [lia | assumption | rewrite Epc; discriminate |];
      exists (c :: sched), s'; simpl; rewrite Hs1;
      (split; [assumption|]); (split; [assumption|]);
      intros q; rewrite Hrel', Hrel; reflexivity.
Qed.

Lemma in_flight_for_split q s :
  in_flight_for q s = (probing_for q s + posting_for q s)%nat.
Proof.
  unfold in_flight_for, probing_for, posting_for.
  induction (threads s) as [|th l IH]; simpl; [reflexivity|].
  rewrite IH. unfold holds_slot, probing, posting.
  destruct (for_port q th), (th_pc th); simpl; lia.
Qed.

(** A thread is never blocked: while [main] has not exited it can take
    its next step, and only the step from line 98 touches the semaphore. *)
Lemma thread_moves cfg n os s th :
  nth_error (threads s) n = Some th -> (forall st, st_pc s <> PExit st) ->
  exists s',
    step cfg (Thread n os) s = Some s' /\
    (th_pc th = WPost ->
       semaphore s' = option_map (fun v => v + 1) (semaphore s) /\
       log s' = log s ++ [ASemPostWorker (task_port (th_task th))] /\
       threads s' =
         replace_nth n {| th_task := th_task th; th_pc := WFree |}
           (threads s)) /\
    (th_pc th <> WPost ->
       semaphore s' = semaphore s /\
       forall q, releases_main q s' = releases_main q s /\
                 releases_worker q s' = releases_worker q s).
Proof.
  intros Hn Hne. simpl. rewrite (worker_running n os s Hne), Hn.
  destruct th as [task pc]. simpl.
  destruct pc as [|done [|e todo] ret| |].
  - destruct (scan_port _ _ _ _ _) as [t ret].
    eexists. split; [reflexivity|]. split; [discriminate|].
    intros _. split; [reflexivity|]. intros q. split; reflexivity.
  - eexists. split; [reflexivity|]. split; [discriminate|].
    intros _. split; [reflexivity|]. intros q.
    unfold releases_main, releases_worker. simpl. rewrite !countb_app.
    simpl. lia.
  - eexists. split; [reflexivity|]. split; [discriminate|].
    intros _. split; [reflexivity|]. intros q.
    unfold releases_main, releases_worker. simpl. rewrite !countb_app.
    simpl. lia.
  - eexists. split; [reflexivity|]. split.
    + intros _. repeat split.
    + intros H. contradiction.
  - eexists. split; [reflexivity|]. split; [discriminate|].
    intros _. split; [reflexivity|]. intros q. split; reflexivity.
Qed.

(** What the counts say of the slots once [main] has returned 0. *)
Lemma exit_slots cfg s :
  inv cfg s -> st_pc s = PExit 0 ->
  forall q, start_port cfg <= q <= end_port cfg ->
    acquires q s = 1%nat /\ releases q s = 1%nat.
Proof.
  intros Hinv Hexit q Hq.
  destruct (exit_quiescent cfg s Hinv Hexit) as [_ Hfl].
  destruct (inv_counts _ _ Hinv q) as (Ha & Hb & Hc' & Hd & Hf).
  pose proof (in_flight_for_le q s) as Hle.
  rewrite Hexit in *. simpl in *. unfold releases.
  cases_on_tests; simpl in *; lia.
Qed.

(** The dispatcher at line 172 or 184 holds the slot of its port, and a
    failure there gives that slot back. *)
Lemma launch_failure_step cfg s p :
  inv cfg s ->
  st_pc s = PMalloc p \/ (exists t, st_pc s = PCreate t /\ task_port t = p) ->
  exists v what,
    semaphore s = Some v /\
    step cfg (Main false) s =
      Some {| st_pc := PLoop (p + 1); semaphore := Some (v + 1);
              threads := threads s;
              log := log s ++ [AStderr what; ASemPostMain p] |}.
Proof.
  intros Hinv Hpc.
  destruct Hinv as [[Hpcok Hsem _] _ _ _]. unfold sem_ok in Hsem.
  destruct s as [pc [v|] ths lg]; simpl in *.
  - exists v. destruct Hpc as [-> | (t & -> & <-)]; eexists;
      (split; [reflexivity|]); reflexivity.
  - destruct Hsem as [E _].
    destruct Hpc as [-> | (t & -> & _)]; discriminate.
Qed.

(** C1. In every state of a run over a valid configuration the number
    of slots in use lies between 0 and the concurrency limit, no more
    probes than the limit are in flight, and the slots in use are those the
    dispatcher holds plus one for every probe in flight.  For every port:
    its iteration takes at most one slot, nothing of its probe happens
    before that, the slot is given back at most once, by the thread only
    after [scan_port] has returned and otherwise by the dispatcher on a
    failed launch, it is out exactly as long as the iteration or the probe
    is live, and a probe that has returned has had its slot given back or
    its thread is at the [sem_post] of line 98.  When [main] returns 0,
    every port of the range has had its slot taken once and given back
    once.

    The steps themselves: at the head of the iteration of a port no slot
    has been taken for it and nothing of its probe has happened; the
    dispatcher is blocked there when the semaphore is at zero and
    otherwise takes one slot, for that port.  At [malloc] and at
    [pthread_create] the dispatcher holds the slot of its port: a
    failure there gives it back, once, and a success gives nothing back
    but hands the slot on, in the end to the new thread.  A thread is
    never blocked; the
    step of a thread whose [scan_port] has returned gives the slot of its
    port back, once, and no other step of a thread touches the semaphore.
    And the end is reached: unless [sem_open] has failed, the run has a
    continuation in which [main] returns 0, where every port of the range
    has had its slot taken once and given back once. *)
Theorem slot_accounting cfg s :
  int_config cfg -> valid_config cfg -> reachable cfg s ->
  0 <= slots_in_use cfg s <= concurrency cfg /\
  Z.of_nat (in_flight s) <= concurrency cfg /\
  (forall v, semaphore s = Some v ->
     slots_in_use cfg s = held cfg (st_pc s) + Z.of_nat (in_flight s)) /\
  (forall q,
     (acquires q s <= 1)%nat /\
     (spawns q s <= acquires q s)%nat /\
     (0 < probe_events q s -> acquires q s = 1)%nat /\
     (releases q s + main_holds q (st_pc s) + in_flight_for q s
      = acquires q s)%nat /\
     (releases_worker q s <= results q s)%nat /\
     (releases_main q s + spawns q s + main_holds q (st_pc s)
      = acquires q s)%nat /\
     (results q s = releases_worker q s + posting_for q s)%nat) /\
  (st_pc s = PExit 0 ->
   forall q, start_port cfg <= q <= end_port cfg ->
     acquires q s = 1%nat /\ releases q s = 1%nat) /\
  (forall p, st_pc s = PLoop p -> p <= end_port cfg ->
     acquires p s = 0%nat /\ probe_events p s = 0%nat /\
     exists v, semaphore s = Some v /\
       forall ok,
         (v = 0 -> step cfg (Main ok) s = None) /\
         (0 < v ->
          exists s', step cfg (Main ok) s = Some s' /\
            st_pc s' = PMalloc p /\ semaphore s' = Some (v - 1) /\
            acquires p s' = 1%nat /\ releases p s' = 0%nat /\
            slots_in_use cfg s' = slots_in_use cfg s + 1)) /\
  (forall p,
     st_pc s = PMalloc p \/
     (exists t, st_pc s = PCreate t /\ task_port t = p) ->
     acquires p s = 1%nat /\ releases p s = 0%nat /\
     exists v s',
       semaphore s = Some v /\ step cfg (Main false) s = Some s' /\
       semaphore s' = Some (v + 1) /\
       acquires p s' = 1%nat /\ releases p s' = 1%nat /\
       spawns p s' = 0%nat /\
       slots_in_use cfg s' = slots_in_use cfg s - 1) /\
  (forall p,
     st_pc s = PMalloc p \/
     (exists t, st_pc s = PCreate t /\ task_port t = p) ->
     exists s',
       step cfg (Main true) s = Some s' /\ semaphore s' = semaphore s /\
       acquires p s' = 1%nat /\ releases p s' = 0%nat /\
       Z.of_nat (in_flight s') + held cfg (st_pc s')
       = Z.of_nat (in_flight s) + held cfg (st_pc s)) /\
  (forall n th os,
     nth_error (threads s) n = Some th -> (forall st, st_pc s <> PExit st) ->
     exists s',
       step cfg (Thread n os) s = Some s' /\
       (th_pc th = WPost ->
        exists v,
          semaphore s = Some v /\ semaphore s' = Some (v + 1) /\
          results (task_port (th_task th)) s = 1%nat /\
          releases (task_port (th_task th)) s = 0%nat /\
          releases (task_port (th_task th)) s' = 1%nat /\
          in_flight s = S (in_flight s') /\
          slots_in_use cfg s' = slots_in_use cfg s - 1) /\
       (th_pc th <> WPost ->
        semaphore s' = semaphore s /\
        forall q, releases q s' = releases q s)) /\
  (st_pc s <> PExit EXIT_FAILURE ->
   exists sched s',
     run cfg sched s = Some s' /\ st_pc s' = PExit 0 /\
     forall q, start_port cfg <= q <= end_port cfg ->
       acquires q s' = 1%nat /\ releases q s' = 1%nat).
Proof.
  intros Hint Hvalid Hreach.
  pose proof (reachable_inv cfg Hint s Hreach) as Hinv.
  pose proof (valid_range cfg Hvalid) as Hrange.
  pose proof (valid_concurrency cfg Hvalid) as Hconc.
  pose proof Hinv as [[Hpc Hsem Hth] Hcnt Hord Hlog].
  destruct Hvalid as (Hs1 & Hse & He & Ht & Hc).
  assert (Hheld : 0 <= held cfg (st_pc s)).
  { destruct (st_pc s); simpl in *; lia. }
  split; [|split; [|split; [|split; [|split]]]];
    [| | | | |split; [|split; [|split; [|split]]]].
  - unfold sem_ok in Hsem. unfold slots_in_use.
    destruct (semaphore s) as [v|]; [|lia].
    destruct Hsem as (_ & Hv & Hsum). lia.
  - unfold sem_ok in Hsem.
    destruct (semaphore s) as [v|].
    + destruct Hsem as (_ & Hv & Hsum). lia.
    + destruct Hsem as [_ E]. unfold in_flight. rewrite E. simpl. lia.
  - intros v Hv. unfold sem_ok in Hsem. unfold slots_in_use.
    rewrite Hv in *. destruct Hsem as (_ & Hv0 & Hsum). lia.
  - intros q. destruct (Hcnt q) as (Ha & Hb & Hc' & Hd & Hf).
    pose proof (probing_le_in_flight q s) as Hle.
    pose proof (in_flight_for_split q s) as Hsplit.
    unfold releases.
    destruct ((start_port cfg <=? q) && (q <? next_port cfg (st_pc s)));
      repeat split; try lia.
  - intros Hexit. apply exit_slots; assumption.
  - intros p Hp Hle.
    destruct (Hcnt p) as (Ha & Hb & Hc' & Hd & Hf).
    assert (Ha0 : acquires p s = 0%nat).
    { rewrite Ha, Hp. simpl. cases_on_tests; simpl; lia. }
    split; [assumption|]. split; [lia|].
    unfold sem_ok in Hsem. rewrite Hp in Hsem.
    unfold acquires, releases, releases_main, releases_worker, slots_in_use
      in *.
    destruct s as [pc [v|] ths lg]; simpl in *;
      [|destruct Hsem; discriminate].
    destruct Hsem as (_ & Hv & _). subst pc.
    exists v. split; [reflexivity|].
    intros ok. unfold main_step, sem_wait. simpl.
    destruct (Z.leb_spec p (end_port cfg)); [|lia].
    rewrite Z.gtb_ltb. split.
    + intros ->. reflexivity.
    + intros Hpos. destruct (Z.ltb_spec 0 v); [|lia]. simpl.
      eexists. split; [reflexivity|]. simpl.
      split; [reflexivity|]. split; [reflexivity|].
      rewrite !countb_app. simpl. rewrite Z.eqb_refl.
      split; [lia|]. split; lia.
  - intros p Hp.
    destruct (Hcnt p) as (Ha & Hb & Hc' & Hd & Hf).
    assert (Hfacts : acquires p s = 1%nat /\ main_holds p (st_pc s) = 1%nat).
    { rewrite Ha.
      destruct Hp as [E | (t & E & <-)]; rewrite E in *; simpl in *;
        rewrite Z.eqb_refl; cases_on_tests; simpl; lia. }
    destruct Hfacts as [Ha1 Hm1].
    split; [assumption|]. split; [unfold releases; lia|].
    destruct (launch_failure_step cfg s p Hinv Hp) as (v & what & Hv & Hstep).
    exists v. eexists. split; [exact Hv|]. split; [exact Hstep|].
    unfold acquires, releases, releases_main, releases_worker, spawns,
      slots_in_use in *.
    rewrite Hv. simpl. rewrite !countb_app. simpl. rewrite Z.eqb_refl.
    split; [reflexivity|]. split; [lia|]. split; [lia|]. split; lia.
  - intros p Hp.
    destruct (Hcnt p) as (Ha & Hb & Hc' & Hd & Hf).
    assert (Hfacts : acquires p s = 1%nat /\ releases p s = 0%nat).
    { unfold releases. rewrite Ha in Hb. rewrite Ha.
      destruct Hp as [E | (t & E & <-)]; rewrite E in *; simpl in *;
        rewrite Z.eqb_refl in Hb; cases_on_tests; simpl in *; lia. }
    destruct Hfacts as [Ha1 Hr0].
    unfold acquires, releases, releases_main, releases_worker, in_flight in *.
    destruct s as [pc sem ths lg]; simpl in *.
    destruct Hp as [-> | (t & -> & <-)]; unfold main_step; simpl;
      eexists; (split; [reflexivity|]); simpl;
      (split; [reflexivity|]); rewrite ?countb_app; simpl;
      (split; [lia|]); (split; lia).
  - intros n th os Hn Hne.
    destruct (thread_moves cfg n os s th Hn Hne) as (s' & Hstep & Hpost & Hoth).
    exists s'. split; [exact Hstep|]. split.
    + intros Hwp. destruct (Hpost Hwp) as (Hsem' & Hlog' & Hths').
      unfold sem_ok in Hsem.
      destruct (semaphore s) as [v|] eqn:Esem;
        [|destruct Hsem as [_ E]; rewrite E in Hn; destruct n; discriminate].
      exists v. split; [reflexivity|]. split; [exact Hsem'|].
      set (q := task_port (th_task th)).
      destruct (Hcnt q) as (Ha & Hb & Hc' & Hd & Hf).
      pose proof (in_flight_for_split q s) as Hsplit.
      assert (Hq : (1 <= posting_for q s)%nat).
      { unfold posting_for.
        apply (countb_nth_error _ n th); [assumption|].
        unfold for_port, posting. fold q. rewrite Z.eqb_refl, Hwp.
        reflexivity. }
      assert (Hle1 : (acquires q s <= 1)%nat).
      { rewrite Ha. destruct (_ && _); lia. }
      split; [lia|]. split; [unfold releases; lia|].
      split; [|split].
      * unfold releases, releases_main, releases_worker in *.
        rewrite Hlog', !countb_app. simpl. rewrite Z.eqb_refl. lia.
      * unfold in_flight. rewrite Hths'.
        pose proof (countb_replace_nth holds_slot n
                      {| th_task := th_task th; th_pc := WFree |} th
                      (threads s) Hn) as Hrep.
        assert (Hh : holds_slot th = true)
          by (unfold holds_slot; rewrite Hwp; reflexivity).
        rewrite Hh in Hrep. simpl in Hrep. lia.
      * unfold slots_in_use. rewrite Hsem', Esem. simpl. lia.
    + intros Hwp. destruct (Hoth Hwp) as [Hsem' Hrel].
      split; [exact Hsem'|]. intros q. unfold releases.
      destruct (Hrel q) as [-> ->]. reflexivity.
  - intros Hnf.
    destruct (st_pc s) as [| | | | | |st] eqn:Epc.
    7: { simpl in Hpc. destruct Hpc as [[-> _]| ->]; [|contradiction].
         exists [], s. split; [reflexivity|]. split; [assumption|].
         apply exit_slots; assumption. }
    all: destruct (run_can_finish cfg Hint Hrange Hconc _ s (le_n _) Hinv)
           as (sched & s' & Hrun & Hend & _);
      [rewrite Epc; discriminate|];
      exists sched, s'; (split; [assumption|]); (split; [assumption|]);
      apply exit_slots; [|assumption];
      apply (run_inv cfg Hint sched s s' Hinv Hrun).
Qed.

Lemma slot_accounting_witness :
  int_config cfg_two_ports /\ valid_config cfg_two_ports /\
  reachable cfg_two_ports side_by_side /\
  0 <= slots_in_use cfg_two_ports side_by_side <= 2 /\
  exists sched s',
    run cfg_two_ports sched side_by_side = Some s' /\ st_pc s' = PExit 0 /\
    forall q, 80 <= q <= 81 -> acquires q s' = 1%nat /\ releases q s' = 1%nat.
Proof.
  assert (Hint : int_config cfg_two_ports)
    by (unfold int_config, is_int; simpl; lia).
  assert (Hvalid : valid_config cfg_two_ports)
    by (unfold valid_config; simpl; lia).
  assert (Hreach : reachable cfg_two_ports side_by_side)
    by (exists sched_two_ports; reflexivity).
  split; [exact Hint|]. split; [exact Hvalid|]. split; [exact Hreach|].
  destruct (slot_accounting cfg_two_ports side_by_side Hint Hvalid Hreach)
    as (Hslots & _ & _ & _ & _ & _ & _ & _ & _ & Hend).
  split; [exact Hslots|]. apply Hend. discriminate.
Defined.

(** C2. The drain loop of lines 194-196 is a barrier: after [i] of its
    waits at most [concurrency - i] probes are in flight, a wait blocks
    exactly when the semaphore is at zero, and once [main] has returned 0
    no probe is in flight: every thread that is left has posted, what was
    launched has returned, no socket is open and the semaphore is empty.
    The barrier does not hang: over a valid configuration every state of a
    run has a continuation in which [main] returns 0. *)
Theorem drain_barrier cfg s :
  int_config cfg -> reachable cfg s ->
  (forall i, st_pc s = PDrain i ->
     Z.of_nat (in_flight s) <= concurrency cfg - i /\
     (i < concurrency cfg ->
      forall ok, step cfg (Main ok) s = None <-> semaphore s = Some 0)) /\
  (st_pc s = PExit 0 ->
     in_flight s = 0%nat /\
     (forall th, In th (threads s) -> th_pc th = WFree) /\
     open_sockets s = [] /\
     semaphore s = Some 0 /\
     forall q, spawns q s = results q s /\ spawns q s = releases_worker q s) /\
  (valid_config cfg -> (forall st, st_pc s <> PExit st) ->
   exists sched s', run cfg sched s = Some s' /\ st_pc s' = PExit 0).
Proof.
  intros Hint Hreach.
  pose proof (reachable_inv cfg Hint s Hreach) as Hinv.
  split; [|split].
  3: { intros Hvalid Hne.
       destruct (run_can_finish cfg Hint (valid_range cfg Hvalid)
                   (valid_concurrency cfg Hvalid) (fuel cfg s) s
                   (le_n _) Hinv Hne) as (sched & s' & Hrun & Hend & _).
       exists sched, s'. split; assumption. }
  - intros i Hi.
    destruct Hinv as [[Hpc Hsem Hth] Hcnt Hord Hlog].
    unfold sem_ok in Hsem. rewrite Hi in *. simpl in *.
    destruct (semaphore s) as [v|] eqn:Hv; [|destruct Hsem; discriminate].
    destruct Hsem as (_ & Hv0 & Hsum).
    split; [lia|].
    intros Hlt ok. unfold main_step, sem_wait. rewrite Hi, Hv.
    rewrite Z.gtb_ltb.
    destruct (Z.ltb_spec i (concurrency cfg)); [|lia].
    destruct (Z.ltb_spec 0 v); simpl; split; intros E;
      try discriminate; try reflexivity.
    + injection E as E. lia.
    + f_equal. lia.
  - intros Hexit.
    destruct (exit_quiescent cfg s Hinv Hexit) as [Hsem0 Hfl].
    assert (Hfree : Forall (fun th => th_pc th = WFree) (threads s)).
    { apply countb_zero_Forall in Hfl.
      eapply Forall_impl; [|exact Hfl].
      intros th. unfold holds_slot.
      destruct (th_pc th); intros; try discriminate; reflexivity. }
    split; [assumption|].
    split; [rewrite Forall_forall in Hfree; assumption|].
    split.
    { unfold open_sockets. apply flat_map_nil_Forall.
      eapply Forall_impl; [|exact Hfree].
      intros th E. unfold thread_fds. rewrite E. reflexivity. }
    split; [assumption|].
    intros q. destruct Hinv as [_ Hcnt _ _].
    destruct (Hcnt q) as (Ha & Hb & Hc' & Hd & Hf).
    pose proof (in_flight_for_le q s) as Hle.
    pose proof (probing_le_in_flight q s) as Hle'.
    lia.
Qed.

Lemma drain_barrier_witness :
  int_config cfg_one_port /\ reachable cfg_one_port done_one_port /\
  in_flight done_one_port = 0%nat.
Proof.
  assert (Hint : int_config cfg_one_port)
    by (unfold int_config, is_int; simpl; lia).
  assert (Hreach : reachable cfg_one_port done_one_port)
    by (exists sched_one_port; reflexivity).
  split; [exact Hint|]. split; [exact Hreach|].
  apply (proj1 (proj2 (drain_barrier cfg_one_port done_one_port Hint Hreach))).
  reflexivity.
Defined.

(** *** Configurations that are turned down *)

Lemma run_from_exit cfg sched st s0 s :
  st_pc s0 = PExit st -> run cfg sched s0 = Some s -> s = s0.
Proof.
  intros Hpc. destruct sched as [|c sched]; simpl.
  - intros E. injection E as <-. reflexivity.
  - destruct c; simpl; unfold main_step, worker; rewrite Hpc; discriminate.
Qed.

Lemma worker_no_thread n os s : threads s = [] -> worker n os s = None.
Proof.
  intros E. unfold worker. rewrite E.
  destruct (st_pc s), n; reflexivity.
Qed.

Lemma invalid_range_states cfg s :
  invalid_range cfg = true -> reachable cfg s ->
  s = initial_state \/ s = failed_validation.
Proof.
  intros Hr [sched Hrun]. destruct sched as [|c sched]; simpl in Hrun.
  - injection Hrun as <-. left. reflexivity.
  - destruct c as [ok|n os]; simpl in Hrun.
    + unfold main_step in Hrun. simpl in Hrun. rewrite Hr in Hrun.
      right. eapply run_from_exit; [|eassumption]. reflexivity.
    + rewrite worker_no_thread in Hrun by reflexivity. discriminate.
Qed.

(** C6. When the port range is invalid (start > end, start < 1 or
    end > 65535) the first step of [main] prints "Invalid port range" and
    exits with EXIT_FAILURE, which is not 0; no state of the run has a
    semaphore, a thread, an open socket, a slot taken or a probe event. *)
Theorem invalid_range_exits cfg :
  start_port cfg > end_port cfg \/ start_port cfg < 1 \/ end_port cfg > 65535 ->
  (forall ok, step cfg (Main ok) initial_state = Some failed_validation) /\
  st_pc failed_validation = PExit EXIT_FAILURE /\
  EXIT_FAILURE <> 0 /\
  forall s, reachable cfg s ->
    semaphore s = None /\ threads s = [] /\ open_sockets s = [] /\
    (forall st, st_pc s = PExit st -> st = EXIT_FAILURE) /\
    forall q, acquires q s = 0%nat /\ spawns q s = 0%nat /\
              probe_events q s = 0%nat /\ results q s = 0%nat.
Proof.
  intros Hbad.
  assert (Hr : invalid_range cfg = true).
  { unfold invalid_range. rewrite !Z.gtb_ltb.
    destruct (Z.ltb_spec (end_port cfg) (start_port cfg)); [reflexivity|].
    destruct (Z.ltb_spec (start_port cfg) 1); [reflexivity|].
    destruct (Z.ltb_spec 65535 (end_port cfg)); [reflexivity|]. lia. }
  split; [|split; [reflexivity|split; [discriminate|]]].
  - intros ok. simpl. unfold main_step. simpl. rewrite Hr. reflexivity.
  - intros s Hs.
    destruct (invalid_range_states cfg s Hr Hs) as [-> | ->];
      (split; [reflexivity|]); (split; [reflexivity|]);
      (split; [reflexivity|]); (split; [|intros q; repeat split]).
    + intros st E. discriminate.
    + intros st E. injection E as <-. reflexivity.
Qed.

Lemma invalid_range_exits_witness :
  step cfg_reversed (Main true) initial_state = Some failed_validation.
Proof.
  apply (invalid_range_exits cfg_reversed). left. simpl. lia.
Defined.

(** What holds as long as the semaphore has not been opened. *)
Lemma not_started_facts cfg s :
  inv cfg s -> started (st_pc s) = false ->
  semaphore s = None /\ threads s = [] /\
  (forall st, st_pc s = PExit st -> st = EXIT_FAILURE) /\
  forall q, acquires q s = 0%nat /\ spawns q s = 0%nat /\
            probe_events q s = 0%nat /\ results q s = 0%nat.
Proof.
  intros [[Hpc Hsem Hth] Hcnt _ _] Hst.
  unfold sem_ok in Hsem.
  destruct (semaphore s) as [v|].
  { destruct Hsem as [E _]. rewrite E in Hst. discriminate. }
  destruct Hsem as [_ Hths].
  split; [reflexivity|]. split; [assumption|]. split.
  - intros st E. rewrite E in *. simpl in *.
    destruct Hpc as [[-> _]|]; [discriminate|assumption].
  - intros q. destruct (Hcnt q) as (Ha & Hb & Hc & Hd & Hf).
    assert (Hn : next_port cfg (st_pc s) = start_port cfg).
    { destruct (st_pc s); simpl in *; try discriminate; try reflexivity.
      rewrite Hst. reflexivity. }
    rewrite Hn in Ha.
    assert (Ha0 : acquires q s = 0%nat) by (cases_on_tests; simpl in *; lia).
    assert (Hs0 : spawns q s = 0%nat) by lia.
    repeat split; lia.
Qed.

Lemma never_started cfg sched :
  int_config cfg -> concurrency cfg < 0 ->
  forall s0 s, inv cfg s0 -> started (st_pc s0) = false ->
    run cfg sched s0 = Some s -> started (st_pc s) = false.
Proof.
  intros Hint Hneg.
  induction sched as [|c sched IH]; simpl; intros s0 s Hinv Hst Hrun.
  - injection Hrun as <-. assumption.
  - destruct (step cfg c s0) as [s1|] eqn:Hstep; [|discriminate].
    apply (IH s1 s); [eapply step_inv; eassumption | | assumption].
    destruct c as [ok|n os]; simpl in Hstep.
    + unfold main_step in Hstep.
      destruct (st_pc s0); simpl in Hst; try discriminate.
      * destruct (invalid_range cfg); injection Hstep as <-; reflexivity.
      * rewrite (to_unsigned_negative cfg Hint Hneg), andb_false_r in Hstep.
        injection Hstep as <-. reflexivity.
    + apply worker_inversion in Hstep.
      destruct Hstep as (_ & _ & _ & -> & _). assumption.
Qed.

(** C4, as amended. The port range is the only thing [main] validates.
    A negative concurrency limit is nevertheless fatal, because [sem_open]
    refuses it: the run exits with EXIT_FAILURE after at most two steps and
    no slot is ever taken.  A timeout that is zero or negative is not
    looked at, and a concurrency limit of zero is accepted: whenever the
    range is valid and [sem_open] succeeds the dispatcher enters its loop,
    and with a limit of zero it then waits for a slot for ever. *)
Theorem config_checks cfg :
  int_config cfg ->
  (concurrency cfg < 0 ->
   (forall ok1 ok2, exists s,
      (run cfg [Main ok1] initial_state = Some s \/
       run cfg [Main ok1; Main ok2] initial_state = Some s) /\
      st_pc s = PExit EXIT_FAILURE) /\
   (forall s, reachable cfg s ->
      threads s = [] /\
      (forall st, st_pc s = PExit st -> st = EXIT_FAILURE) /\
      forall q, acquires q s = 0%nat /\ probe_events q s = 0%nat)) /\
  (invalid_range cfg = false -> 0 <= concurrency cfg ->
   let entered :=
     {| st_pc := PLoop (start_port cfg); semaphore := Some (concurrency cfg);
        threads := []; log := [ASemUnlink] |} in
   run cfg [Main true; Main true] initial_state = Some entered /\
   (concurrency cfg = 0 -> forall c, step cfg c entered = None)).
Proof.
  intros Hint. split.
  - intros Hneg. split.
    + intros ok1 ok2. simpl. unfold main_step at 1 2. simpl.
      destruct (invalid_range cfg).
      * eexists. split; [left; reflexivity|reflexivity].
      * simpl. unfold main_step. simpl.
        rewrite (to_unsigned_negative cfg Hint Hneg), andb_false_r.
        eexists. split; [right; reflexivity|reflexivity].
    + intros s Hs.
      pose proof (reachable_inv cfg Hint s Hs) as Hinv.
      destruct Hs as [sched Hrun].
      assert (Hst : started (st_pc s) = false).
      { eapply (never_started cfg sched Hint Hneg initial_state s);
          [apply inv_initial | reflexivity | assumption]. }
      destruct (not_started_facts cfg s Hinv Hst) as (_ & Ht & He & Hq).
      split; [assumption|]. split; [assumption|].
      intros q. destruct (Hq q) as (? & ? & ? & ?). split; assumption.
  - intros Hr Hc entered. subst entered.
    assert (Hu : to_unsigned (concurrency cfg) = concurrency cfg).
    { destruct Hint as (_ & _ & _ & Hi). unfold is_int in Hi.
      unfold to_unsigned. apply Z.mod_small. lia. }
    assert (Hle : (concurrency cfg <=? SEM_VALUE_MAX) = true).
    { destruct Hint as (_ & _ & _ & Hi). unfold is_int in Hi.
      apply Z.leb_le. unfold SEM_VALUE_MAX. lia. }
    split.
    + simpl. unfold main_step at 1 2. simpl. rewrite Hr. simpl.
      unfold main_step. simpl. rewrite Hu, Hle. reflexivity.
    + intros H0 [ok|n os]; simpl.
      * unfold main_step, sem_wait. simpl. rewrite H0.
        unfold invalid_range in Hr.
        destruct (Z.leb_spec (start_port cfg) (end_port cfg));
          [reflexivity|].
        rewrite Z.gtb_ltb in Hr.
        destruct (Z.ltb_spec (end_port cfg) (start_port cfg));
          [discriminate|lia].
      * apply worker_no_thread. reflexivity.
Qed.

Lemma config_checks_witness :
  int_config cfg_zero_concurrency /\
  run cfg_zero_concurrency [Main true; Main true] initial_state
  = Some stuck_zero_concurrency.
Proof.
  assert (Hint : int_config cfg_zero_concurrency)
    by (unfold int_config, is_int; simpl; lia).
  split; [exact Hint|].
  apply (proj2 (config_checks cfg_zero_concurrency Hint)).
  - reflexivity.
  - simpl; lia.
Defined.

(** C4, as stated, fails: a configuration with a timeout of zero is
    scanned to the end and [main] returns 0. *)
Lemma zero_timeout_is_scanned :
  timeout_sec cfg_zero_timeout <= 0 /\
  reachable cfg_zero_timeout done_zero_timeout /\
  st_pc done_zero_timeout = PExit 0 /\
  results 80 done_zero_timeout = 1%nat /\
  ~ rejected_before_probing cfg_zero_timeout.
Proof.
  assert (Hreach : reachable cfg_zero_timeout done_zero_timeout)
    by (exists sched_one_port; reflexivity).
  split; [simpl; lia|]. split; [exact Hreach|].
  split; [reflexivity|]. split; [reflexivity|].
  intros H. destruct (H _ Hreach) as [Hexit _].
  apply (Hexit 0); reflexivity.
Qed.

(** *** Results *)

(** C5, as amended. At every point of a run there is at most one
    result per port and none for a port outside the range.  When [main]
    has returned 0, every port of the range either was launched and has
    exactly one result, or failed to launch (its slot was given back by
    the dispatcher) and has none: a port whose task allocation or thread
    creation fails is skipped. *)
Theorem results_per_port cfg s :
  int_config cfg -> reachable cfg s ->
  (forall q,
     (results q s <= spawns q s)%nat /\ (spawns q s <= 1)%nat /\
     (~ start_port cfg <= q <= end_port cfg -> results q s = 0%nat)) /\
  (st_pc s = PExit 0 ->
   forall q, start_port cfg <= q <= end_port cfg ->
     results q s = spawns q s /\
     (spawns q s + releases_main q s = 1)%nat).
Proof.
  intros Hint Hreach.
  pose proof (reachable_inv cfg Hint s Hreach) as Hinv.
  split.
  - intros q. destruct Hinv as [[Hpc Hsem Hth] Hcnt _ _].
    destruct (Hcnt q) as (Ha & Hb & Hc & Hd & Hf).
    assert (Hn : started (st_pc s) = true ->
                 next_port cfg (st_pc s) <= end_port cfg + 1).
    { destruct (st_pc s); simpl in *; try discriminate; try lia.
      intros ->. reflexivity. }
    assert (Ho : ~ start_port cfg <= q <= end_port cfg -> acquires q s = 0%nat).
    { intros Hq. rewrite Ha.
      destruct (started (st_pc s)) eqn:Hst.
      - specialize (Hn eq_refl). cases_on_tests; simpl; lia.
      - assert (E : next_port cfg (st_pc s) = start_port cfg).
        { destruct (st_pc s); simpl in *; try discriminate; try reflexivity.
          rewrite Hst. reflexivity. }
        rewrite E. cases_on_tests; simpl; lia. }
    assert (Ha1 : (acquires q s <= 1)%nat).
    { rewrite Ha. destruct (_ && _); lia. }
    split; [lia|]. split; [lia|]. intros Hq. specialize (Ho Hq). lia.
  - intros Hexit q Hq. exact (exit_results cfg s Hinv Hexit q Hq).
Qed.

Lemma results_per_port_witness :
  int_config cfg_one_port /\ reachable cfg_one_port done_malloc_fails /\
  (results 80 done_malloc_fails <= spawns 80 done_malloc_fails)%nat.
Proof.
  assert (Hint : int_config cfg_one_port)
    by (unfold int_config, is_int; simpl; lia).
  assert (Hreach : reachable cfg_one_port done_malloc_fails)
    by (exists sched_malloc_fails; reflexivity).
  split; [exact Hint|]. split; [exact Hreach|].
  apply (proj1 (results_per_port cfg_one_port done_malloc_fails Hint Hreach)).
Defined.

(** C5, as stated, fails: over a valid configuration, a run in which
    [malloc] fails for port 80 ends with no result for that port. *)
Lemma no_result_when_malloc_fails :
  valid_config cfg_one_port /\
  reachable cfg_one_port done_malloc_fails /\
  st_pc done_malloc_fails = PExit 0 /\
  results 80 done_malloc_fails = 0%nat /\
  ~ one_result_per_port cfg_one_port done_malloc_fails.
Proof.
  split; [unfold valid_config; simpl; lia|].
  split; [exists sched_malloc_fails; reflexivity|].
  split; [reflexivity|]. split; [reflexivity|].
  intros H. specialize (H 80). simpl in H.
  assert (E : results 80 done_malloc_fails = 1%nat) by (apply H; lia).
  discriminate E.
Qed.

(** *** Launch failures *)

(** The loop of line 169 goes on from a state with a free slot. *)
Lemma loop_goes_on cfg ok p v ths lg :
  0 < v ->
  exists s',
    step cfg (Main ok)
      {| st_pc := PLoop p; semaphore := Some v; threads := ths; log := lg |}
    = Some s' /\
    st_pc s' = if p <=? end_port cfg then PMalloc p else PDrain 0.
Proof.
  intros Hv. simpl. unfold main_step, sem_wait. simpl.
  destruct (p <=? end_port cfg).
  - rewrite Z.gtb_ltb. destruct (Z.ltb_spec 0 v); [|lia].
    simpl. eexists. split; reflexivity.
  - eexists. split; reflexivity.
Qed.

(** C7. When [malloc] or [pthread_create] fails for port [p], the
    dispatcher reports it with [perror], posts the semaphore once for
    [p], leaves the threads alone and goes to the iteration of [p + 1];
    there it is not blocked: its next step takes the slot for [p + 1],
    or leaves the loop if [p] was the last port.  The rest of the scan is
    not lost: the run has a continuation in which [main] returns 0 and
    every port after [p] has its result. *)
Theorem launch_failure_goes_on cfg s p :
  int_config cfg -> reachable cfg s ->
  st_pc s = PMalloc p \/ st_pc s = PCreate (make_task cfg p) ->
  exists v s',
    semaphore s = Some v /\
    step cfg (Main false) s = Some s' /\
    st_pc s' = PLoop (p + 1) /\
    semaphore s' = Some (v + 1) /\
    threads s' = threads s /\
    (exists what, log s' = log s ++ [AStderr what; ASemPostMain p]) /\
    (forall ok, exists s'',
       step cfg (Main ok) s' = Some s'' /\
       st_pc s'' =
         if p + 1 <=? end_port cfg then PMalloc (p + 1) else PDrain 0) /\
    exists sched s_end,
      run cfg sched s' = Some s_end /\ st_pc s_end = PExit 0 /\
      forall q, p < q <= end_port cfg -> results q s_end = 1%nat.
Proof.
  intros Hint Hreach Hpc.
  pose proof (reachable_inv cfg Hint s Hreach) as Hinv.
  assert (Hfacts : invalid_range cfg = false /\
                   start_port cfg <= p <= end_port cfg /\
                   exists v, semaphore s = Some v /\ 0 <= v /\
                             v + 1 <= concurrency cfg).
  { destruct Hinv as [[Hpcok Hsem _] _ _ _]. unfold sem_ok in Hsem.
    destruct (semaphore s) as [v|];
      [|destruct Hsem as [E _]; destruct Hpc as [E'|E']; rewrite E' in E;
        discriminate].
    destruct Hsem as (_ & Hv & Hsum).
    destruct Hpc as [E|E]; rewrite E in *; simpl in *.
    - destruct Hpcok as [Hr Hp]. split; [assumption|]. split; [assumption|].
      exists v. split; [reflexivity|]. lia.
    - destruct Hpcok as (Hr & _ & Hp). split; [assumption|].
      split; [assumption|]. exists v. split; [reflexivity|]. lia. }
  destruct Hfacts as (Hr & Hp & v & Hv & Hv0 & HvC).
  assert (Hstep : exists what,
    step cfg (Main false) s =
      Some {| st_pc := PLoop (p + 1); semaphore := Some (v + 1);
              threads := threads s;
              log := log s ++ [AStderr what; ASemPostMain p] |}).
  { destruct s as [pc sem ths lg]. simpl in *. subst sem.
    destruct Hpc as [-> | ->]; eexists; reflexivity. }
  destruct Hstep as [what Hstep].
  exists v. eexists. split; [exact Hv|]. split; [exact Hstep|].
  repeat (split; [reflexivity|]).
  split; [exists what; reflexivity|]. split.
  - intros ok. apply (loop_goes_on cfg ok). lia.
  - pose proof (reachable_step cfg _ _ _ Hreach Hstep) as Hreach'.
    pose proof (reachable_inv cfg Hint _ Hreach') as Hinv'.
    destruct (run_can_finish cfg Hint Hr ltac:(lia) _ _ (le_n _) Hinv')
      as (sched & s_end & Hrun & Hend & Hrel); [discriminate|].
    exists sched, s_end. split; [assumption|]. split; [assumption|].
    intros q Hq.
    pose proof (run_inv cfg Hint sched _ _ Hinv' Hrun) as Hinv_end.
    destruct (exit_results cfg s_end Hinv_end Hend q ltac:(lia)) as [Hres Hsp].
    destruct (inv_counts _ _ Hinv' q) as (Ha & Hb & _).
    simpl in Ha. specialize (Hrel q).
    assert (Ha0 : acquires q
              {| st_pc := PLoop (p + 1); semaphore := Some (v + 1);
                 threads := threads s;
                 log := log s ++ [AStderr what; ASemPostMain p] |} = 0%nat).
    { rewrite Ha. cases_on_tests; simpl; lia. }
    lia.
Qed.

Lemma launch_failure_goes_on_witness :
  int_config cfg_two_ports /\ reachable cfg_two_ports after_malloc /\
  exists v s',
    semaphore after_malloc = Some v /\
    step cfg_two_ports (Main false) after_malloc = Some s' /\
    st_pc s' = PLoop 81.
Proof.
  assert (Hint : int_config cfg_two_ports)
    by (unfold int_config, is_int; simpl; lia).
  assert (Hreach : reachable cfg_two_ports after_malloc)
    by (exists [Main true; Main true; Main true]; reflexivity).
  split; [exact Hint|]. split; [exact Hreach|].
  destruct (launch_failure_goes_on cfg_two_ports after_malloc 80 Hint Hreach)
    as (v & s' & Hv & Hstep & Hpc & _).
  - left. reflexivity.
  - exists v, s'. split; [exact Hv|]. split; [exact Hstep|exact Hpc].
Defined.

(** *** Order of dispatch *)

Lemma replace_nth_snoc {A : Type} (x y : A) l :
  replace_nth (List.length l) x (l ++ [y]) = l ++ [x].
Proof.
  induction l as [|z l IH]; simpl; [reflexivity|].
  rewrite IH. reflexivity.
Qed.

Lemma nth_error_snoc_last {A : Type} (y : A) l :
  nth_error (l ++ [y]) (List.length l) = Some y.
Proof. induction l as [|z l IH]; simpl; [reflexivity|assumption]. Qed.

(** C9. The slots of the loop are taken for the ports start_port,
    start_port + 1, ... in ascending order without a gap, and for the whole
    range once [main] has returned 0.  At the head of an iteration the
    dispatcher is blocked exactly when the semaphore is at zero, whatever
    the threads are doing; with a free slot it moves on.  A successful
    [pthread_create] adds a thread that has not yet entered [scan_port]
    and takes the dispatcher straight to the next port.

    Past the last port the dispatcher leaves the loop for the drain.  With
    the slot of a port in hand and [malloc] successful it goes to
    [pthread_create] with the task of that very port.  At
    [pthread_create] nothing has been launched for the port; when the call
    succeeds the launch is logged, once, and the dispatcher is at the next
    port before anything of the probe has happened; the new thread then
    enters [scan_port] on the address, port, timeout and verbose flag of
    the configuration, which leaves the dispatcher and the semaphore as
    they are.  Once [main] has returned 0 every port of the range has
    either been launched once or seen its launch fail once.  Over a valid
    configuration, unless [sem_open] has failed, the run has a
    continuation in which [main] returns 0 with the slots taken for the
    whole range in order, and with a probe launched for every port whose
    launch has not failed already. *)
Theorem dispatch_order cfg s :
  int_config cfg -> reachable cfg s ->
  acquired (log s) = zrange (start_port cfg) (next_port cfg (st_pc s)) /\
  (st_pc s = PExit 0 ->
   acquired (log s) = zrange (start_port cfg) (end_port cfg + 1)) /\
  (forall p, st_pc s = PLoop p -> p <= end_port cfg ->
     exists v, semaphore s = Some v /\ 0 <= v /\
       forall ok,
         (v = 0 -> step cfg (Main ok) s = None) /\
         (0 < v -> exists s', step cfg (Main ok) s = Some s' /\
                              st_pc s' = PMalloc p /\
                              semaphore s' = Some (v - 1) /\
                              threads s' = threads s)) /\
  (forall t, st_pc s = PCreate t ->
     exists s', step cfg (Main true) s = Some s' /\
       st_pc s' = PLoop (task_port t + 1) /\
       semaphore s' = semaphore s /\
       threads s' = threads s ++ [{| th_task := t; th_pc := WCall |}]) /\
  (forall p, st_pc s = PLoop p -> end_port cfg < p ->
     forall ok, step cfg (Main ok) s = Some (goto (PDrain 0) s)) /\
  (forall p, st_pc s = PMalloc p ->
     start_port cfg <= p <= end_port cfg /\
     step cfg (Main true) s = Some (goto (PCreate (make_task cfg p)) s)) /\
  (forall t, st_pc s = PCreate t ->
     t = make_task cfg (task_port t) /\
     start_port cfg <= task_port t <= end_port cfg /\
     spawns (task_port t) s = 0%nat /\
     exists s',
       step cfg (Main true) s = Some s' /\
       log s' = log s ++ [ASpawn (task_port t)] /\
       spawns (task_port t) s' = 1%nat /\
       probe_events (task_port t) s' = 0%nat /\
       results (task_port t) s' = 0%nat /\
       forall os, exists s'',
         step cfg (Thread (List.length (threads s)) os) s' = Some s'' /\
         st_pc s'' = PLoop (task_port t + 1) /\
         semaphore s'' = semaphore s /\
         threads s'' =
           threads s ++
           [{| th_task := t;
               th_pc :=
                 WScan []
                   (fst (scan_port os (strncpy63 (ip cfg)) (task_port t)
                           (timeout_sec cfg) (verbose cfg)))
                   (snd (scan_port os (strncpy63 (ip cfg)) (task_port t)
                           (timeout_sec cfg) (verbose cfg))) |}]) /\
  (st_pc s = PExit 0 ->
   forall q, start_port cfg <= q <= end_port cfg ->
     (spawns q s + releases_main q s = 1)%nat) /\
  (valid_config cfg -> st_pc s <> PExit EXIT_FAILURE ->
   exists sched s',
     run cfg sched s = Some s' /\ st_pc s' = PExit 0 /\
     acquired (log s') = zrange (start_port cfg) (end_port cfg + 1) /\
     forall q, start_port cfg <= q <= end_port cfg ->
       releases_main q s = 0%nat -> spawns q s' = 1%nat).
Proof.
  intros Hint Hreach.
  pose proof (reachable_inv cfg Hint s Hreach) as Hinv.
  pose proof Hinv as [[Hpc Hsem Hth] Hcnt Hord _].
  unfold order_ok in Hord.
  split; [assumption|].
  split; [|split; [|split; [|split; [|split; [|split; [|split]]]]]].
  - intros Hexit. rewrite Hord, Hexit. reflexivity.
  - intros p Hp Hle. unfold sem_ok in Hsem. rewrite Hp in Hsem.
    destruct s as [pc [v|] ths lg]; simpl in *;
      [|destruct Hsem; discriminate].
    destruct Hsem as (_ & Hv & _). subst pc.
    exists v. split; [reflexivity|]. split; [assumption|].
    intros ok. unfold main_step, sem_wait. simpl.
    destruct (Z.leb_spec p (end_port cfg)); [|lia].
    rewrite Z.gtb_ltb. split.
    + intros ->. reflexivity.
    + intros Hpos. destruct (Z.ltb_spec 0 v); [|lia]. simpl.
      eexists. repeat split; reflexivity.
  - intros t Ht. destruct s as [pc sem ths lg]; simpl in *. subst pc.
    unfold main_step. simpl. eexists. repeat split; reflexivity.
  - intros p Hp Hlt ok. simpl. unfold main_step. rewrite Hp.
    destruct (Z.leb_spec p (end_port cfg)); [lia|reflexivity].
  - intros p Hp. rewrite Hp in Hpc. simpl in Hpc.
    split; [apply Hpc|]. simpl. unfold main_step. rewrite Hp. reflexivity.
  - intros t Ht. rewrite Ht in Hpc. simpl in Hpc.
    destruct Hpc as (_ & Htask & Hrange).
    destruct (Hcnt (task_port t)) as (Ha & Hb & Hc & Hd & Hf).
    assert (Hsp : spawns (task_port t) s = 0%nat /\
                  results (task_port t) s = 0%nat /\
                  probe_events (task_port t) s = 0%nat).
    { rewrite Ht in Ha, Hb. simpl in Ha, Hb. rewrite Z.eqb_refl in Hb.
      destruct (_ && _); lia. }
    destruct Hsp as (Hsp & Hres & Hev).
    split; [assumption|]. split; [assumption|]. split; [assumption|].
    unfold spawns, results, probe_events in *.
    destruct s as [pc sem ths lg]; simpl in *. subst pc.
    unfold main_step. simpl. eexists. split; [reflexivity|]. simpl.
    split; [reflexivity|]. rewrite !countb_app. simpl. rewrite Z.eqb_refl.
    split; [lia|]. split; [lia|]. split; [lia|].
    intros os. unfold worker. simpl. rewrite nth_error_snoc_last. simpl.
    assert (Hip : task_ip t = strncpy63 (ip cfg))
      by (rewrite Htask; reflexivity).
    assert (Hto : task_timeout_sec t = timeout_sec cfg)
      by (rewrite Htask; reflexivity).
    assert (Hvb : task_verbose t = verbose cfg)
      by (rewrite Htask; reflexivity).
    rewrite Hip, Hto, Hvb.
    destruct (scan_port os (strncpy63 (ip cfg)) (task_port t)
                (timeout_sec cfg) (verbose cfg)) as [tr ret].
    eexists. split; [reflexivity|]. simpl.
    split; [reflexivity|]. split; [reflexivity|].
    apply replace_nth_snoc.
  - intros Hexit q Hq.
    destruct (exit_results cfg s Hinv Hexit q Hq) as [_ H]. exact H.
  - intros Hvalid Hnf.
    pose proof (valid_range cfg Hvalid) as Hrange.
    pose proof (valid_concurrency cfg Hvalid) as Hconc.
    assert (Hend : forall s', inv cfg s' -> st_pc s' = PExit 0 ->
              (forall q, releases_main q s' = releases_main q s) ->
              acquired (log s') = zrange (start_port cfg) (end_port cfg + 1) /\
              forall q, start_port cfg <= q <= end_port cfg ->
                releases_main q s = 0%nat -> spawns q s' = 1%nat).
    { intros s' Hinv' Hexit Hrel. split.
      - rewrite (inv_order _ _ Hinv'), Hexit. reflexivity.
      - intros q Hq H0.
        destruct (exit_results cfg s' Hinv' Hexit q Hq) as [_ H].
        rewrite Hrel in H. lia. }
    destruct (st_pc s) as [| | | | | |st] eqn:Epc.
    7: { simpl in Hpc. destruct Hpc as [[-> _]| ->]; [|contradiction].
         exists [], s. split; [reflexivity|]. split; [assumption|].
         apply Hend; [assumption | assumption | reflexivity]. }
    all: destruct (run_can_finish cfg Hint Hrange Hconc _ s (le_n _) Hinv)
           as (sched & s' & Hrun & Hexit & Hrel);
      [rewrite Epc; discriminate|];
      exists sched, s'; (split; [assumption|]); (split; [assumption|]);
      apply Hend; [|assumption|assumption];
      apply (run_inv cfg Hint sched s s' Hinv Hrun).
Qed.

Lemma dispatch_order_witness :
  int_config cfg_two_ports /\ reachable cfg_two_ports side_by_side /\
  acquired (log side_by_side) = [80; 81] /\
  exists sched s',
    run cfg_two_ports sched side_by_side = Some s' /\ st_pc s' = PExit 0 /\
    spawns 80 s' = 1%nat /\ spawns 81 s' = 1%nat.
Proof.
  assert (Hint : int_config cfg_two_ports)
    by (unfold int_config, is_int; simpl; lia).
  assert (Hvalid : valid_config cfg_two_ports)
    by (unfold valid_config; simpl; lia).
  assert (Hreach : reachable cfg_two_ports side_by_side)
    by (exists sched_two_ports; reflexivity).
  split; [exact Hint|]. split; [exact Hreach|].
  destruct (dispatch_order cfg_two_ports side_by_side Hint Hreach)
    as (Hord & _ & _ & _ & _ & _ & _ & _ & Hend).
  split; [exact Hord|].
  destruct (Hend Hvalid) as (sched & s' & Hrun & Hexit & _ & Hsp);
    [discriminate|].
  exists sched, s'. split; [exact Hrun|]. split; [exact Hexit|].
  split; apply Hsp; simpl; try lia; reflexivity.
Defined.

(** *** Output *)

(** C10. With the verbose flag off a probe writes nothing, whatever the
    operating system answers; in a run, every task carries the flag off,
    the log holds no output of a probe and nothing goes to standard
    output: the return value of [scan_port] is dropped by [worker], so no
    per-port result leaves the process. *)
Theorem quiet_without_verbose cfg s :
  int_config cfg -> verbose cfg = false -> reachable cfg s ->
  (forall os a p t, filter is_output (fst (scan_port os a p t false)) = []) /\
  Forall (fun th => task_verbose (th_task th) = false) (threads s) /\
  countb probe_output (log s) = 0%nat /\
  countb on_stdout (log s) = 0%nat.
Proof.
  intros Hint Hv Hreach.
  pose proof (reachable_inv cfg Hint s Hreach) as [[_ _ Hth] _ _ Hlog].
  split; [intros; apply scan_port_quiet|]. split.
  - eapply Forall_impl; [|exact Hth].
    intros th (Ht & _). rewrite Ht. simpl. assumption.
  - assert (Hq : Forall (fun a => probe_output a = false) (log s)).
    { eapply Forall_impl; [|exact Hlog].
      intros [ | | | | | |q e| | | ]; simpl; try reflexivity.
      intros [os Hin]. rewrite Hv in Hin.
      pose proof (scan_port_quiet os (strncpy63 (ip cfg)) q (timeout_sec cfg))
        as Hf.
      destruct (is_output e) eqn:He; [|reflexivity].
      assert (Hin' : In e (filter is_output
                (fst (scan_port os (strncpy63 (ip cfg)) q (timeout_sec cfg)
                        false)))).
      { apply filter_In. split; assumption. }
      rewrite Hf in Hin'. destruct Hin'. }
    split; [apply countb_zero_Forall; assumption|].
    apply countb_zero_Forall.
    eapply Forall_impl; [|exact Hq].
    intros [ | | | | | |q e| | | ]; simpl; try reflexivity.
    destruct e; simpl; intros; try reflexivity; discriminate.
Qed.

Lemma quiet_without_verbose_witness :
  int_config cfg_one_port /\ verbose cfg_one_port = false /\
  reachable cfg_one_port done_one_port /\
  countb on_stdout (log done_one_port) = 0%nat.
Proof.
  assert (Hint : int_config cfg_one_port)
    by (unfold int_config, is_int; simpl; lia).
  assert (Hreach : reachable cfg_one_port done_one_port)
    by (exists sched_one_port; reflexivity).
  split; [exact Hint|]. split; [reflexivity|]. split; [exact Hreach|].
  apply (quiet_without_verbose cfg_one_port done_one_port Hint eq_refl Hreach).
Defined.

(** ** More on the prober *)

(** X1. [scan_port] returns 1 exactly when a socket was obtained and the
    handshake completed, either at once or, after EINPROGRESS, by
    [select] reporting the socket ready with no pending error; in every
    other case it returns 0. *)
Theorem scan_port_open_iff os a p t v :
  (snd (scan_port os a p t v) = 1 <->
   0 <= socket_ret os /\
   (0 <= connect_ret os \/
    connect_errno os = EINPROGRESS /\ 0 < select_ret os /\ so_error os = 0))
  /\ (snd (scan_port os a p t v) <> 1 -> snd (scan_port os a p t v) = 0).
Proof.
  unfold scan_port. rewrite ?Z.gtb_ltb.
  destruct (Z.ltb_spec (socket_ret os) 0); simpl.
  { split; [split; [discriminate|lia]|reflexivity]. }
  destruct (Z.ltb_spec (connect_ret os) 0); simpl.
  2: { split; [split; [lia|reflexivity]|congruence]. }
  destruct (Z.eqb_spec (connect_errno os) EINPROGRESS); simpl.
  2: { split; [split; [discriminate|lia]|reflexivity]. }
  destruct (Z.ltb_spec 0 (select_ret os)); simpl.
  2: { split; [split; [discriminate|lia]|reflexivity]. }
  destruct (Z.eqb_spec (so_error os) 0); simpl.
  - split; [split; [lia|reflexivity]|congruence].
  - split; [split; [discriminate|lia]|reflexivity].
Qed.

(** X2. What a verbose probe prints agrees with what it returns: after a
    failed [socket] only [perror]; otherwise exactly one line, the "open"
    line when the result is 1 and the "closed or timeout" line when it
    is 0. *)
Theorem scan_port_output_matches_return os a p t :
  filter is_output (fst (scan_port os a p t true)) =
    if socket_ret os <? 0 then [EvPerror "socket"]
    else if snd (scan_port os a p t true) =? 1 then [EvPrintf (msg_open p)]
    else [EvPrintf (msg_closed p)].
Proof.
  unfold scan_port, say. rewrite ?Z.gtb_ltb.
  destruct (socket_ret os <? 0); [reflexivity|].
  destruct (connect_ret os <? 0); [|reflexivity].
  destruct (connect_errno os =? EINPROGRESS); [|reflexivity].
  destruct (0 <? select_ret os); [|reflexivity].
  destruct (so_error os =? 0); reflexivity.
Qed.

(** X3. The verbose flag only adds output: with the flag on, the system
    calls and the result of a probe are those of the same probe with the
    flag off. *)
Theorem scan_port_verbose_only_prints os a p t :
  syscalls (fst (scan_port os a p t true)) = fst (scan_port os a p t false) /\
  snd (scan_port os a p t true) = snd (scan_port os a p t false).
Proof.
  unfold scan_port, say, syscalls. rewrite ?Z.gtb_ltb.
  destruct (socket_ret os <? 0); [split; reflexivity|].
  destruct (connect_ret os <? 0); [|split; reflexivity].
  destruct (connect_errno os =? EINPROGRESS); [|split; reflexivity].
  destruct (0 <? select_ret os); [|split; reflexivity].
  destruct (so_error os =? 0); split; reflexivity.
Qed.

Lemma scan_port_select_event os a p t v e :
  In e (fst (scan_port os a p t v)) -> is_select e = true ->
  e = EvSelect (socket_ret os + 1) (FD_SET (socket_ret os) FD_ZERO) t /\
  0 <= socket_ret os.
Proof.
  unfold scan_port, say. rewrite ?Z.gtb_ltb.
  destruct (Z.ltb_spec (socket_ret os) 0);
    [|destruct (connect_ret os <? 0);
      [destruct (connect_errno os =? EINPROGRESS);
       [destruct (0 <? select_ret os); [destruct (so_error os =? 0)|]|]|]];
    destruct v; simpl; intros He Hsel;
    repeat (destruct He as [<-|He];
            [first [discriminate|split; [reflexivity|assumption]]|]);
    contradiction.
Qed.

(** X4. One attempt per call: a probe creates one socket, connects at
    most once and waits at most once.  It waits exactly when the socket
    was obtained and connect answered EINPROGRESS, and then for the
    timeout it was given, with [nfds] one above its descriptor.  The set it
    waits on is its own descriptor alone as long as that descriptor is
    below FD_SETSIZE; line 64 has no such test, and for a larger
    descriptor [FD_SET] overruns the set. *)
Theorem scan_port_single_attempt os a p t v :
  let tr := fst (scan_port os a p t v) in
  countb is_socket tr = 1%nat /\
  (countb is_connect tr <= 1)%nat /\
  countb is_select tr =
    (if (0 <=? socket_ret os) && (connect_ret os <? 0)
        && (connect_errno os =? EINPROGRESS) then 1%nat else 0%nat) /\
  forall e, In e tr -> is_select e = true ->
    exists set,
      e = EvSelect (socket_ret os + 1) set t /\
      (socket_ret os < FD_SETSIZE -> set = Some [socket_ret os]) /\
      (FD_SETSIZE <= socket_ret os -> set = None).
Proof.
  intros tr. subst tr.
  split; [|split; [|split]].
  4: { intros e He Hsel.
       destruct (scan_port_select_event _ _ _ _ _ _ He Hsel) as [-> Hfd].
       eexists. split; [reflexivity|]. unfold FD_SET, FD_ZERO.
       destruct (Z.leb_spec 0 (socket_ret os)); [|lia].
       destruct (Z.ltb_spec (socket_ret os) FD_SETSIZE); simpl;
         split; intros; (reflexivity || lia). }
  all: unfold scan_port, say; rewrite ?Z.gtb_ltb;
    (destruct (Z.ltb_spec (socket_ret os) 0) as [Hs|Hs];
     [destruct (Z.leb_spec 0 (socket_ret os)); [lia|];
      destruct v; simpl; lia|]);
    (destruct (Z.leb_spec 0 (socket_ret os)); [|lia]);
    (destruct (connect_ret os <? 0);
     [destruct (connect_errno os =? EINPROGRESS);
      [destruct (0 <? select_ret os); [destruct (so_error os =? 0)|]|]|]);
    destruct v; simpl; lia.
Qed.

(** X5. A probe touches no descriptor but its own, and none at all when
    [socket] failed; the one exception is the [select] of a probe whose
    descriptor is FD_SETSIZE or more, which is handed an overrun set. *)
Theorem scan_port_own_descriptor os a p t v :
  forall e fd, In e (fst (scan_port os a p t v)) -> touches fd e = true ->
    0 <= socket_ret os /\
    (fd = socket_ret os \/
     is_select e = true /\ FD_SETSIZE <= socket_ret os).
Proof.
  intros e fd. unfold scan_port, say, touches, FD_SET, FD_ZERO.
  rewrite ?Z.gtb_ltb.
  destruct (Z.ltb_spec (socket_ret os) 0) as [Hs|Hs].
  { destruct v; simpl; intros He Hfd;
      repeat (destruct He as [<-|He]; [discriminate|]); contradiction. }
  destruct (Z.leb_spec 0 (socket_ret os)); [|lia].
  destruct (Z.ltb_spec (socket_ret os) FD_SETSIZE);
    (destruct (connect_ret os <? 0);
     [destruct (connect_errno os =? EINPROGRESS);
      [destruct (0 <? select_ret os); [destruct (so_error os =? 0)|]|]|]);
    destruct v; simpl; intros He Hfd;
    repeat (destruct He as [<-|He];
            [simpl in Hfd; split; [assumption|];
             first [discriminate
                   | right; split; [reflexivity|assumption]
                   | left; rewrite ?orb_false_r in Hfd;
                     apply Z.eqb_eq in Hfd; congruence]|]);
    try contradiction.
Qed.

Lemma scan_port_own_descriptor_witness :
  In (EvClose 3) (fst (scan_port os_refuse "127.0.0.1" 80 1 true)) /\
  touches 3 (EvClose 3) = true /\
  0 <= socket_ret os_refuse.
Proof.
  assert (Hin : In (EvClose 3)
                  (fst (scan_port os_refuse "127.0.0.1" 80 1 true))).
  { simpl. do 6 right. left. reflexivity. }
  split; [exact Hin|]. split; [reflexivity|].
  exact (proj1 (scan_port_own_descriptor os_refuse "127.0.0.1" 80 1 true
                  (EvClose 3) 3 Hin eq_refl)).
Defined.

(** *** Byte order and file status flags *)

Lemma htons_bits p i :
  0 <= i ->
  Z.testbit (htons p) i =
    ((8 <=? i) && (i <? 16) && Z.testbit p (i - 8))
    || ((i <? 8) && Z.testbit p (i + 8)).
Proof.
  intros Hi. unfold htons.
  change 65535 with (Z.ones 16). change 255 with (Z.ones 8).
  rewrite Z.lor_spec, Z.shiftl_spec, Z.shiftr_spec by assumption.
  rewrite !Z.land_spec, !Z.testbit_ones by lia.
  destruct (Z.leb_spec 8 i), (Z.ltb_spec i 16), (Z.ltb_spec i 8);
    try lia; simpl;
    repeat match goal with
      | |- context [?a <=? ?b] => destruct (Z.leb_spec a b); try lia
      | |- context [?a <? ?b] => destruct (Z.ltb_spec a b); try lia
      end; simpl; rewrite ?andb_true_r, ?andb_false_r, ?orb_false_r;
    reflexivity.
Qed.

Ltac bool_cases :=
  simpl;
  repeat match goal with
    | |- context [?a <=? ?b] => destruct (Z.leb_spec a b); try lia
    | |- context [?a <? ?b] => destruct (Z.ltb_spec a b); try lia
    end; simpl;
  repeat match goal with
    | |- context [Z.testbit ?a ?b] => destruct (Z.testbit a b)
    end; reflexivity.

Lemma htons_twice p : htons (htons p) = Z.land p 65535.
Proof.
  apply Z.bits_inj'. intros i Hi.
  rewrite htons_bits by assumption.
  change 65535 with (Z.ones 16).
  rewrite Z.land_spec, Z.testbit_ones by lia.
  destruct (Z.leb_spec 8 i), (Z.ltb_spec i 16), (Z.ltb_spec i 8);
    try lia; simpl;
    try rewrite htons_bits by lia;
    try replace (i - 8 + 8) with i by lia;
    try replace (i + 8 - 8) with i by lia;
    bool_cases.
Qed.

Lemma land_16_bits p : 0 <= p < 65536 -> Z.land p 65535 = p.
Proof.
  intros Hp. change 65535 with (Z.ones 16).
  rewrite Z.land_ones by lia. apply Z.mod_small. lia.
Qed.

Lemma htons_htons p : 0 <= p < 65536 -> htons (htons p) = p.
Proof.
  intros Hp. rewrite htons_twice. apply land_16_bits. assumption.
Qed.

(** X6. The port that goes into [sin_port] is a 16-bit value from which
    the port number is recovered by swapping the bytes again; ports of
    [0, 65535] therefore never collide on the wire, while the port number
    is taken modulo 65536. *)
Theorem htons_round_trip :
  (forall p, 0 <= htons p < 65536) /\
  (forall p, 0 <= p < 65536 -> htons (htons p) = p) /\
  (forall p q, 0 <= p < 65536 -> 0 <= q < 65536 ->
     htons p = htons q -> p = q) /\
  (forall p, htons (p + 65536) = htons p).
Proof.
  assert (Hrange : forall p, 0 <= htons p < 65536).
  { intros p.
    assert (E : htons p = Z.land (htons p) 65535).
    { apply Z.bits_inj'. intros i Hi. change 65535 with (Z.ones 16).
      rewrite Z.land_spec, Z.testbit_ones, htons_bits by lia.
      bool_cases. }
    rewrite E. change 65535 with (Z.ones 16).
    rewrite Z.land_ones by lia. apply Z.mod_pos_bound. lia. }
  split; [exact Hrange|]. split; [exact htons_htons|]. split.
  - intros p q Hp Hq E.
    rewrite <- (htons_htons p Hp), <- (htons_htons q Hq), E. reflexivity.
  - intros p. unfold htons.
    replace (Z.land (p + 65536) 65535) with (Z.land p 65535); [reflexivity|].
    change 65535 with (Z.ones 16). rewrite !Z.land_ones by lia.
    change (2 ^ 16) with 65536.
    rewrite <- (Z.mul_1_l 65536) at 2. rewrite Z.mod_add by lia. reflexivity.
Qed.

(** X7. When the socket was obtained, a probe begins by reading the file
    status flags, setting them again with O_NONBLOCK added and every other
    flag as it was, and only then connects, once, to the port in network
    byte order.  The address of that connect is the one the string denotes
    when [inet_pton] accepted the string; the result of [inet_pton] is not
    looked at, and when it refused the string the connect goes to
    0.0.0.0. *)
Theorem scan_port_nonblocking_connect os a p t v :
  0 <= socket_ret os ->
  exists fl addr rest,
    fst (scan_port os a p t v) =
      EvSocket (socket_ret os) :: EvGetFl (socket_ret os)
      :: EvSetFl (socket_ret os) fl
      :: EvConnect (socket_ret os) addr (htons p) :: rest /\
    Z.testbit fl 11 = true /\
    (forall i, i <> 11 -> Z.testbit fl i = Z.testbit (getfl_ret os) i) /\
    (inet_pton_ret os = 1 -> addr = InAddr a) /\
    (inet_pton_ret os <> 1 -> addr = InAddrAny) /\
    countb is_connect rest = 0%nat.
Proof.
  intros Hs.
  exists (Z.lor (getfl_ret os) O_NONBLOCK).
  exists (if inet_pton_ret os =? 1 then InAddr a else InAddrAny).
  assert (Hbits :
    Z.testbit (Z.lor (getfl_ret os) O_NONBLOCK) 11 = true /\
    forall i, i <> 11 ->
      Z.testbit (Z.lor (getfl_ret os) O_NONBLOCK) i
      = Z.testbit (getfl_ret os) i).
  { change O_NONBLOCK with (2 ^ 11). split.
    - rewrite Z.lor_spec, Z.pow2_bits_true by lia. apply orb_true_r.
    - intros i Hi. rewrite Z.lor_spec, Z.pow2_bits_false by lia.
      apply orb_false_r. }
  destruct Hbits as [Hb1 Hb2].
  assert (Ha1 : inet_pton_ret os = 1 ->
                (if inet_pton_ret os =? 1 then InAddr a else InAddrAny)
                = InAddr a).
  { intros ->. reflexivity. }
  assert (Ha0 : inet_pton_ret os <> 1 ->
                (if inet_pton_ret os =? 1 then InAddr a else InAddrAny)
                = InAddrAny).
  { intros H. destruct (Z.eqb_spec (inet_pton_ret os) 1);
      [contradiction|reflexivity]. }
  unfold scan_port, say. rewrite ?Z.gtb_ltb.
  destruct (Z.ltb_spec (socket_ret os) 0); [lia|].
  destruct (connect_ret os <? 0);
    [destruct (connect_errno os =? EINPROGRESS);
     [destruct (0 <? select_ret os); [destruct (so_error os =? 0)|]|]|];
    destruct v; simpl; eexists;
    (split; [reflexivity|]); (split; [exact Hb1|]);
    (split; [exact Hb2|]); (split; [exact Ha1|]);
    (split; [exact Ha0|reflexivity]).
Qed.

Lemma scan_port_nonblocking_connect_witness :
  0 <= socket_ret os_silent /\
  exists fl addr rest,
    fst (scan_port os_silent "127.0.0.1" 80 1 false) =
      EvSocket 4 :: EvGetFl 4 :: EvSetFl 4 fl
      :: EvConnect 4 addr (htons 80) :: rest.
Proof.
  assert (H : 0 <= socket_ret os_silent) by (simpl; lia).
  split; [exact H|].
  destruct (scan_port_nonblocking_connect os_silent "127.0.0.1" 80 1 false H)
    as (fl & addr & rest & E & _).
  exists fl, addr, rest. exact E.
Defined.

(** ** More on the dispatcher *)

Lemma threads_fuel_replace_nth n x th l :
  nth_error l n = Some th ->
  (threads_fuel (replace_nth n x l) + thread_fuel th
   = threads_fuel l + thread_fuel x)%nat.
Proof.
  unfold threads_fuel.
  revert n; induction l as [|y l IH]; intros [|n] H; simpl in *;
    try discriminate.
  - injection H as ->. lia.
  - specialize (IH _ H). lia.
Qed.

Lemma threads_fuel_remove_nth n th l :
  nth_error l n = Some th ->
  (threads_fuel (remove_nth n l) + thread_fuel th = threads_fuel l)%nat.
Proof.
  unfold threads_fuel.
  revert n; induction l as [|y l IH]; intros [|n] H; simpl in *;
    try discriminate.
  - injection H as ->. lia.
  - specialize (IH _ H). lia.
Qed.

Lemma threads_fuel_app l1 l2 :
  threads_fuel (l1 ++ l2) = (threads_fuel l1 + threads_fuel l2)%nat.
Proof.
  unfold threads_fuel. rewrite map_app, list_sum_app. reflexivity.
Qed.

(** Every step, of the dispatcher or of a thread, whatever the
    environment answers, uses up some of what is left. *)
Lemma step_steps_left cfg c s s' :
  int_config cfg -> inv cfg s -> step cfg c s = Some s' ->
  0 <= steps_left cfg s' < steps_left cfg s.
Proof.
  intros Hint Hinv Hstep.
  destruct Hinv as [[Hpc Hsem Hth] _ _ _].
  unfold steps_left.
  destruct c as [ok|n os]; simpl in Hstep.
  - destruct s as [pc sem ths lg].
    unfold main_step, sem_wait, goto, record, sem_post, set_threads in Hstep.
    unfold sem_ok, in_flight in Hsem. simpl in *.
    assert (Hnn : 0 <= Z.of_nat (threads_fuel ths)) by lia.
    destruct pc; simpl in Hpc, Hsem, Hstep.
    + destruct (invalid_range cfg); injection Hstep as <-;
        unfold main_left; simpl; lia.
    + destruct (ok && _) eqn:Hok; injection Hstep as <-.
      * apply andb_prop in Hok. destruct Hok as [_ Hle].
        apply Z.leb_le in Hle.
        destruct (to_unsigned_small cfg Hint Hle) as [_ Hc].
        unfold invalid_range in Hpc. unfold main_left. simpl.
        cases_on_tests; simpl in *; try discriminate; lia.
      * unfold main_left; simpl; lia.
    + destruct Hpc as [_ Hp].
      destruct sem as [v|]; [|destruct Hsem; discriminate].
      destruct Hsem as (_ & Hv & Hsum).
      destruct (Z.leb_spec port (end_port cfg)).
      * simpl in Hstep. destruct (v >? 0); [|discriminate].
        injection Hstep as <-. unfold main_left; simpl; lia.
      * injection Hstep as <-. unfold main_left; simpl; lia.
    + destruct Hpc as [_ Hp].
      destruct sem as [v|]; [|destruct Hsem; discriminate].
      destruct Hsem as (_ & Hv & Hsum).
      destruct ok; injection Hstep as <-; unfold main_left; simpl; lia.
    + destruct Hpc as (_ & _ & Hp).
      destruct sem as [v|]; [|destruct Hsem; discriminate].
      destruct Hsem as (_ & Hv & Hsum).
      destruct ok; injection Hstep as <-; unfold main_left; simpl.
      * rewrite threads_fuel_app.
        change (threads_fuel [{| th_task := task; th_pc := WCall |}])
          with 12%nat. lia.
      * lia.
    + destruct Hpc as [_ Hp].
      destruct sem as [v|]; [|destruct Hsem; discriminate].
      destruct Hsem as (_ & Hv & Hsum).
      destruct (Z.ltb_spec i (concurrency cfg)).
      * simpl in Hstep. destruct (v >? 0); [|discriminate].
        injection Hstep as <-. unfold main_left; simpl; lia.
      * injection Hstep as <-. unfold main_left; simpl; lia.
    + discriminate.
  - apply worker_inversion in Hstep.
    destruct Hstep as (th & Hn & Hne & Epc & Hcase). rewrite Epc.
    assert (Hmain : 0 <= main_left cfg (st_pc s)).
    { unfold sem_ok in Hsem.
      destruct (semaphore s) as [v|];
        [|destruct Hsem as [_ E]; rewrite E in Hn; destruct n; discriminate].
      destruct Hsem as (Hst & Hv & Hsum).
      assert (0 <= Z.of_nat (in_flight s)) by lia.
      unfold invalid_range in Hpc. unfold main_left.
      destruct (st_pc s); simpl in *; try discriminate;
        try (exfalso; eapply Hne; reflexivity);
        cases_on_tests; simpl in *; try lia;
        destruct Hpc; try discriminate; lia. }
    assert (Hpos : forall x, (1 <= thread_fuel x)%nat).
    { intros x. unfold thread_fuel. destruct (th_pc x); lia. }
    destruct (th_pc th) as [|done [|e todo] ret| |] eqn:Eth.
    + destruct Hcase as (t & ret & Hsp & _ & _ & Et). rewrite Et.
      pose proof (threads_fuel_replace_nth n
        {| th_task := th_task th; th_pc := WScan [] t ret |} th _ Hn) as Hf.
      pose proof (scan_port_length os (task_ip (th_task th))
        (task_port (th_task th)) (task_timeout_sec (th_task th))
        (task_verbose (th_task th))) as Hlen.
      rewrite Hsp in Hlen. simpl in Hlen.
      unfold thread_fuel at 1 2 in Hf. rewrite Eth in Hf. simpl in Hf. lia.
    + destruct Hcase as (_ & _ & Et). rewrite Et.
      pose proof (threads_fuel_replace_nth n
        {| th_task := th_task th; th_pc := WPost |} th _ Hn) as Hf.
      unfold thread_fuel at 1 2 in Hf. rewrite Eth in Hf. simpl in Hf. lia.
    + destruct Hcase as (_ & _ & Et). rewrite Et.
      pose proof (threads_fuel_replace_nth n
        {| th_task := th_task th; th_pc := WScan (done ++ [e]) todo ret |}
        th _ Hn) as Hf.
      unfold thread_fuel at 1 2 in Hf. rewrite Eth in Hf. simpl in Hf. lia.
    + destruct Hcase as (_ & _ & Et). rewrite Et.
      pose proof (threads_fuel_replace_nth n
        {| th_task := th_task th; th_pc := WFree |} th _ Hn) as Hf.
      unfold thread_fuel at 1 2 in Hf. rewrite Eth in Hf. simpl in Hf. lia.
    + destruct Hcase as (_ & _ & Et). rewrite Et.
      pose proof (threads_fuel_remove_nth n th _ Hn) as Hf.
      pose proof (Hpos th). lia.
Qed.

Lemma run_steps_left cfg sched :
  int_config cfg ->
  forall s s', inv cfg s -> 0 <= steps_left cfg s ->
    run cfg sched s = Some s' ->
    Z.of_nat (List.length sched) <= steps_left cfg s - steps_left cfg s' /\
    0 <= steps_left cfg s'.
Proof.
  intros Hint.
  induction sched as [|c sched IH]; simpl; intros s s' Hinv Hpos Hrun.
  - injection Hrun as <-. lia.
  - destruct (step cfg c s) as [s1|] eqn:Hstep; [|discriminate].
    pose proof (step_steps_left cfg c s s1 Hint Hinv Hstep) as Hdec.
    pose proof (step_inv cfg Hint c s s1 Hinv Hstep) as Hinv1.
    destruct (IH s1 s' Hinv1 ltac:(lia) Hrun). lia.
Qed.

(** X8. No schedule keeps the program running for ever: whatever the
    configuration, the interleaving and the answers of the environment, a
    run has at most 16 steps for every port of the range, one for every
    slot and four more. *)
Theorem run_is_bounded cfg sched s :
  int_config cfg -> run cfg sched initial_state = Some s ->
  (List.length sched <= steps_bound cfg)%nat.
Proof.
  intros Hint Hrun.
  assert (H0 : steps_left cfg initial_state = Z.of_nat (steps_bound cfg)).
  { unfold steps_left, steps_bound, main_left, threads_fuel. simpl. lia. }
  destruct (run_steps_left cfg sched Hint initial_state s
              (inv_initial cfg) ltac:(lia) Hrun) as [Hlen Hpos].
  lia.
Qed.

Lemma run_is_bounded_witness :
  int_config cfg_one_port /\
  run cfg_one_port sched_one_port initial_state = Some done_one_port /\
  (List.length sched_one_port <= steps_bound cfg_one_port)%nat.
Proof.
  assert (Hint : int_config cfg_one_port)
    by (unfold int_config, is_int; simpl; lia).
  assert (Hrun : run cfg_one_port sched_one_port initial_state
                 = Some done_one_port) by reflexivity.
  split; [exact Hint|]. split; [exact Hrun|].
  exact (run_is_bounded cfg_one_port sched_one_port done_one_port Hint Hrun).
Defined.

(** X9. Nothing but an empty semaphore stops the program.  A thread can
    always take its next step, and such a step never moves the
    dispatcher or takes a slot; the dispatcher can take its next step
    unless it is at a [sem_wait] with the semaphore at zero; and with a
    positive concurrency limit every state in which [main] has not exited
    has a step. *)
Theorem no_deadlock cfg s :
  int_config cfg -> reachable cfg s -> (forall st, st_pc s <> PExit st) ->
  (forall n th os, nth_error (threads s) n = Some th ->
     exists s', step cfg (Thread n os) s = Some s' /\
                st_pc s' = st_pc s /\
                (forall v, semaphore s = Some v ->
                   exists v', semaphore s' = Some v' /\ v <= v')) /\
  (forall ok, step cfg (Main ok) s = None ->
     semaphore s = Some 0 /\
     ((exists p, st_pc s = PLoop p /\ p <= end_port cfg) \/
      (exists i, st_pc s = PDrain i /\ i < concurrency cfg))) /\
  (0 < concurrency cfg -> exists c s', step cfg c s = Some s').
Proof.
  intros Hint Hreach Hne.
  pose proof (reachable_inv cfg Hint s Hreach) as Hinv.
  assert (Hthread : forall n th os, nth_error (threads s) n = Some th ->
     exists s', step cfg (Thread n os) s = Some s' /\
                st_pc s' = st_pc s /\
                (forall v, semaphore s = Some v ->
                   exists v', semaphore s' = Some v' /\ v <= v')).
  { intros n th os Hn. simpl.
    rewrite (worker_running n os s Hne), Hn. simpl.
    destruct (th_pc th) as [|done [|e todo] ret| |].
    - destruct (scan_port _ _ _ _ _) as [t ret].
      eexists. split; [reflexivity|]. split; [reflexivity|].
      intros v Hv. exists v. simpl. split; [assumption|lia].
    - eexists. split; [reflexivity|]. split; [reflexivity|].
      intros v Hv. exists v. simpl. split; [assumption|lia].
    - eexists. split; [reflexivity|]. split; [reflexivity|].
      intros v Hv. exists v. simpl. split; [assumption|lia].
    - eexists. split; [reflexivity|]. split; [reflexivity|].
      intros v Hv. exists (v + 1). simpl. rewrite Hv. simpl.
      split; [reflexivity|lia].
    - eexists. split; [reflexivity|]. split; [reflexivity|].
      intros v Hv. exists v. simpl. split; [assumption|lia]. }
  assert (Hmain : forall ok, step cfg (Main ok) s = None ->
     semaphore s = Some 0 /\
     ((exists p, st_pc s = PLoop p /\ p <= end_port cfg) \/
      (exists i, st_pc s = PDrain i /\ i < concurrency cfg))).
  { intros ok Hstep. simpl in Hstep.
    destruct Hinv as [[Hpc Hsem _] _ _ _]. unfold sem_ok in Hsem.
    unfold main_step, sem_wait in Hstep.
    destruct (st_pc s) eqn:Epc; simpl in *.
    - destruct (invalid_range cfg); discriminate.
    - destruct (ok && _); discriminate.
    - destruct (semaphore s) as [v|]; [|destruct Hsem; discriminate].
      destruct Hsem as (_ & Hv & _).
      destruct (Z.leb_spec port (end_port cfg)); [|discriminate].
      rewrite Z.gtb_ltb in Hstep.
      destruct (Z.ltb_spec 0 v); [discriminate|].
      split; [f_equal; lia|]. left. exists port. split; [reflexivity|lia].
    - destruct ok; discriminate.
    - destruct ok; discriminate.
    - destruct (semaphore s) as [v|]; [|destruct Hsem; discriminate].
      destruct Hsem as (_ & Hv & _).
      destruct (Z.ltb_spec i (concurrency cfg)); [|discriminate].
      rewrite Z.gtb_ltb in Hstep.
      destruct (Z.ltb_spec 0 v); [discriminate|].
      split; [f_equal; lia|]. right. exists i. split; [reflexivity|lia].
    - exfalso. eapply Hne. reflexivity. }
  split; [exact Hthread|]. split; [exact Hmain|].
  intros Hc.
  destruct (threads s) as [|th rest] eqn:Hths.
  - destruct (step cfg (Main true) s) as [s'|] eqn:Hstep.
    + exists (Main true), s'. assumption.
    + exfalso. destruct (Hmain true Hstep) as [Hsem0 Hwhere].
      destruct Hinv as [[Hpc Hsem _] _ _ _]. unfold sem_ok in Hsem.
      rewrite Hsem0 in Hsem. destruct Hsem as (_ & _ & Hsum).
      unfold in_flight in Hsum. rewrite Hths in Hsum. simpl in Hsum.
      destruct Hwhere as [(p & Ep & _) | (i & Ei & Hi)].
      * rewrite Ep in Hsum. simpl in Hsum. lia.
      * rewrite Ei in Hsum. simpl in Hsum. lia.
  - destruct (Hthread 0%nat th os_accept) as (s' & Hstep & _).
    { reflexivity. }
    exists (Thread 0 os_accept), s'. assumption.
Qed.

Lemma no_deadlock_witness :
  int_config cfg_two_ports /\ reachable cfg_two_ports side_by_side /\
  exists c s', step cfg_two_ports c side_by_side = Some s'.
Proof.
  assert (Hint : int_config cfg_two_ports)
    by (unfold int_config, is_int; simpl; lia).
  assert (Hreach : reachable cfg_two_ports side_by_side)
    by (exists sched_two_ports; reflexivity).
  split; [exact Hint|]. split; [exact Hreach|].
  apply (no_deadlock cfg_two_ports side_by_side Hint Hreach).
  - intros st. discriminate.
  - simpl; lia.
Defined.

(** With a concurrency limit of zero the loop is entered and never left,
    and no thread is created. *)
Lemma zero_concurrency_loop_head cfg sched :
  int_config cfg -> concurrency cfg = 0 ->
  forall s0 s, inv cfg s0 ->
    threads s0 = [] /\
    (started (st_pc s0) = true -> st_pc s0 = PLoop (start_port cfg)) ->
    run cfg sched s0 = Some s ->
    threads s = [] /\
    (started (st_pc s) = true -> st_pc s = PLoop (start_port cfg)).
Proof.
  intros Hint Hc.
  induction sched as [|c sched IH]; simpl; intros s0 s Hinv [Ht0 H0] Hrun.
  - injection Hrun as <-. split; assumption.
  - destruct (step cfg c s0) as [s1|] eqn:Hstep; [|discriminate].
    apply (IH s1 s); [eapply step_inv; eassumption | | assumption].
    destruct c as [ok|n os]; simpl in Hstep.
    + destruct Hinv as [[Hpc Hsem _] _ _ _]. unfold sem_ok in Hsem.
      unfold main_step, sem_wait in Hstep.
      destruct (st_pc s0) eqn:Epc; simpl in *;
        try (specialize (H0 eq_refl); discriminate).
      * destruct (invalid_range cfg); injection Hstep as <-; simpl;
          (split; [assumption|discriminate]).
      * destruct (ok && _); injection Hstep as <-; simpl;
          (split; [assumption|]); [reflexivity|discriminate].
      * specialize (H0 eq_refl). injection H0 as ->.
        destruct Hpc as [Hr _].
        assert (Hle : (start_port cfg <=? end_port cfg) = true).
        { apply Z.leb_le. unfold invalid_range in Hr.
          cases_on_tests; simpl in *; try discriminate; lia. }
        rewrite Hle in Hstep.
        destruct (semaphore s0) as [v|]; [|destruct Hsem; discriminate].
        destruct Hsem as (_ & Hv & Hsum).
        rewrite Z.gtb_ltb in Hstep.
        destruct (Z.ltb_spec 0 v); [lia|discriminate].
      * discriminate.
    + rewrite worker_no_thread in Hstep by assumption. discriminate.
Qed.

(** X10. A concurrency limit of zero passes validation and is accepted
    by [sem_open], and then nothing is ever scanned: in no state of the run
    has a slot been taken, a thread been created or a probe event
    happened, and [main] never returns 0. *)
Theorem zero_concurrency_never_scans cfg s :
  int_config cfg -> concurrency cfg = 0 -> reachable cfg s ->
  st_pc s <> PExit 0 /\ threads s = [] /\
  forall q, acquires q s = 0%nat /\ spawns q s = 0%nat /\
            probe_events q s = 0%nat /\ results q s = 0%nat.
Proof.
  intros Hint Hc Hreach.
  pose proof (reachable_inv cfg Hint s Hreach) as Hinv.
  destruct Hreach as [sched Hrun].
  destruct (zero_concurrency_loop_head cfg sched Hint Hc initial_state s
              (inv_initial cfg)
              (conj eq_refl (fun H => False_ind _ (Bool.diff_false_true H)))
              Hrun) as [Hths Hhead].
  destruct Hinv as [_ Hcnt _ _].
  assert (Hnext : next_port cfg (st_pc s) = start_port cfg).
  { destruct (started (st_pc s)) eqn:Hst.
    - rewrite (Hhead eq_refl). reflexivity.
    - destruct (st_pc s); simpl in *; try discriminate; try reflexivity.
      rewrite Hst. reflexivity. }
  split; [|split; [assumption|]].
  - intros E. rewrite E in Hhead. specialize (Hhead eq_refl). discriminate.
  - intros q. destruct (Hcnt q) as (Ha & Hb & Hsp & Hd & Hf).
    rewrite Hnext in Ha.
    assert (Ha0 : acquires q s = 0%nat) by (cases_on_tests; simpl in *; lia).
    assert (Hs0 : spawns q s = 0%nat) by lia.
    repeat split; lia.
Qed.

Lemma zero_concurrency_never_scans_witness :
  int_config cfg_zero_concurrency /\
  reachable cfg_zero_concurrency stuck_zero_concurrency /\
  st_pc stuck_zero_concurrency <> PExit 0.
Proof.
  assert (Hint : int_config cfg_zero_concurrency)
    by (unfold int_config, is_int; simpl; lia).
  assert (Hreach : reachable cfg_zero_concurrency stuck_zero_concurrency)
    by (exists [Main true; Main true]; reflexivity).
  split; [exact Hint|]. split; [exact Hreach|].
  exact (proj1 (zero_concurrency_never_scans cfg_zero_concurrency
                  stuck_zero_concurrency Hint eq_refl Hreach)).
Defined.

(** *** What is probed, and how *)


(** A slot is only ever taken for a port of the range, and then the range
    is a valid one. *)
Lemma acquired_in_range cfg s q :
  inv cfg s -> (1 <= acquires q s)%nat ->
  start_port cfg <= q <= end_port cfg /\ invalid_range cfg = false.
Proof.
  intros [[Hpc Hsem _] Hcnt _ _] Ha.
  destruct (Hcnt q) as (Hq & _). rewrite Hq in Ha. clear Hq.
  assert (Hlt : start_port cfg <= q < next_port cfg (st_pc s)).
  { cases_on_tests; simpl in *; lia. }
  clear Ha.
  destruct (st_pc s) as [| |p|p|t|i|st]; simpl in *; try lia.
  - destruct Hpc as [Hr Hp]. split; [lia|assumption].
  - destruct Hpc as [Hr Hp]. split; [lia|assumption].
  - destruct Hpc as (Hr & _ & Hp). split; [lia|assumption].
  - destruct Hpc as [Hr _]. split; [lia|assumption].
  - destruct Hpc as [[-> Hr]| ->]; simpl in *; [|lia].
    split; [lia|assumption].
Qed.

Lemma valid_range_bounds cfg :
  invalid_range cfg = false ->
  1 <= start_port cfg /\ start_port cfg <= end_port cfg /\
  end_port cfg <= 65535.
Proof.
  unfold invalid_range. intros H.
  cases_on_tests; simpl in *; try discriminate; lia.
Qed.




(** *** The log of one port is one call of [scan_port] *)

Lemma events_of_app q l1 l2 :
  events_of q (l1 ++ l2) = events_of q l1 ++ events_of q l2.
Proof.
  induction l1 as [|a l1 IH]; simpl; [reflexivity|].
  destruct a; simpl; try assumption.
  destruct (port =? q); simpl; rewrite IH; reflexivity.
Qed.

Lemma returned_app q l1 l2 :
  returned q (l1 ++ l2) = returned q l1 ++ returned q l2.
Proof.
  induction l1 as [|a l1 IH]; simpl; [reflexivity|].
  destruct a; simpl; try assumption.
  destruct (port =? q); simpl; rewrite IH; reflexivity.
Qed.

Lemma events_of_none q l : countb (is_sys q) l = 0%nat -> events_of q l = [].
Proof.
  induction l as [|a l IH]; simpl; [reflexivity|].
  destruct a; simpl; try (intros H; apply IH; lia).
  destruct (port =? q); simpl; intros H; [lia|apply IH; lia].
Qed.

Lemma returned_none q l : countb (is_return q) l = 0%nat -> returned q l = [].
Proof.
  induction l as [|a l IH]; simpl; [reflexivity|].
  destruct a; simpl; try (intros H; apply IH; lia).
  destruct (port =? q); simpl; intros H; [lia|apply IH; lia].
Qed.

Lemma nth_error_replace_nth_other {A : Type} (n m : nat) (x : A) l :
  m <> n -> nth_error (replace_nth n x l) m = nth_error l m.
Proof.
  revert n m; induction l as [|y l IH]; intros [|n] [|m] H; simpl;
    try reflexivity; try congruence.
  apply IH. congruence.
Qed.

Lemma nth_error_replace_nth_same {A : Type} (n : nat) (x y z : A) l :
  nth_error l n = Some y -> nth_error (replace_nth n x l) n = Some z -> z = x.
Proof.
  revert n; induction l as [|w l IH]; intros [|n]; simpl; try discriminate.
  - intros _ E. injection E as <-. reflexivity.
  - apply IH.
Qed.

Lemma nth_error_remove_nth {A : Type} (n m : nat) (x : A) l :
  nth_error (remove_nth n l) m = Some x -> exists m', nth_error l m' = Some x.
Proof.
  revert n m; induction l as [|y l IH]; intros [|n] m; simpl;
    try (destruct m; discriminate).
  - intros H. exists (S m). assumption.
  - destruct m as [|m]; simpl.
    + intros H. exists 0%nat. assumption.
    + intros H. destruct (IH _ _ H) as [m' Hm']. exists (S m'). assumption.
Qed.

Lemma nth_error_snoc {A : Type} (m : nat) (x y : A) l :
  nth_error (l ++ [x]) m = Some y -> nth_error l m = Some y \/ y = x.
Proof.
  revert m; induction l as [|z l IH]; intros [|m]; simpl.
  - intros E. injection E as <-. right. reflexivity.
  - destruct m; discriminate.
  - intros E. left. assumption.
  - apply IH.
Qed.

Lemma countb_two {A : Type} (f : A -> bool) (n m : nat) (x y : A) l :
  nth_error l n = Some x -> nth_error l m = Some y -> n <> m ->
  f x = true -> f y = true -> (2 <= countb f l)%nat.
Proof.
  revert n m; induction l as [|z l IH]; intros [|n] [|m]; simpl;
    try discriminate; try congruence.
  - intros E Hm _ Hx Hy. injection E as ->. rewrite Hx.
    pose proof (countb_nth_error f m y l Hm Hy). lia.
  - intros Hn E _ Hx Hy. injection E as ->. rewrite Hy.
    pose proof (countb_nth_error f n x l Hn Hx). lia.
  - intros Hn Hm Hne Hx Hy.
    assert (n <> m) by congruence.
    pose proof (IH n m Hn Hm H Hx Hy). destruct (f z); lia.
Qed.

Lemma countb_exists {A : Type} (f : A -> bool) (l : list A) :
  (1 <= countb f l)%nat -> exists n x, nth_error l n = Some x /\ f x = true.
Proof.
  induction l as [|y l IH]; simpl; [lia|].
  destruct (f y) eqn:E.
  - intros _. exists 0%nat, y. split; [reflexivity|assumption].
  - intros H. destruct (IH ltac:(lia)) as (n & x & Hn & Hx).
    exists (S n), x. split; assumption.
Qed.

Lemma trace_ok_initial cfg : trace_ok cfg initial_state.
Proof.
  intros q. split.
  - intros m th H. destruct m; discriminate.
  - unfold results. simpl. lia.
Qed.

(** What a step of [main] does to the log and to the threads. *)
Lemma main_step_shape cfg ok s s' :
  main_step cfg ok s = Some s' ->
  (exists l, log s' = log s ++ l /\
     forall q, events_of q l = [] /\ returned q l = [] /\
               countb (is_return q) l = 0%nat) /\
  (threads s' = threads s \/
   exists t, st_pc s = PCreate t /\
     threads s' = threads s ++ [{| th_task := t; th_pc := WCall |}]).
Proof.
  destruct s as [pc sem ths lg].
  unfold main_step, sem_wait, goto, record, sem_post, set_threads. simpl.
  assert (Hnil : exists l : list action, lg = lg ++ l /\
     forall q, events_of q l = [] /\ returned q l = [] /\
               countb (is_return q) l = 0%nat).
  { exists []. rewrite app_nil_r. repeat split. }
  destruct pc; simpl.
  - destruct (invalid_range cfg); intros E; injection E as <-; simpl;
      (split; [|left; reflexivity]); [eexists; repeat split|assumption].
  - destruct (ok && _); intros E; injection E as <-; simpl;
      (split; [|left; reflexivity]); eexists; repeat split.
  - destruct (port <=? end_port cfg).
    + destruct sem as [v|]; [|discriminate]. simpl.
      destruct (v >? 0); [|discriminate].
      intros E; injection E as <-; simpl.
      split; [|left; reflexivity]. eexists; repeat split.
    + intros E; injection E as <-; simpl.
      split; [assumption|left; reflexivity].
  - destruct ok; intros E; injection E as <-; simpl;
      (split; [|left; reflexivity]); [assumption|eexists; repeat split].
  - destruct ok; intros E; injection E as <-; simpl.
    + split; [eexists; repeat split|].
      right. exists task. split; reflexivity.
    + split; [eexists; repeat split|left; reflexivity].
  - destruct (i <? concurrency cfg).
    + destruct sem as [v|]; [|discriminate]. simpl.
      destruct (v >? 0); [|discriminate].
      intros E; injection E as <-; simpl.
      split; [|left; reflexivity]. eexists; repeat split.
    + intros E; injection E as <-; simpl.
      split; [|left; reflexivity]. eexists; repeat split.
  - discriminate.
Qed.

Lemma main_step_trace cfg ok s s' :
  inv cfg s -> trace_ok cfg s -> main_step cfg ok s = Some s' ->
  trace_ok cfg s'.
Proof.
  intros Hinv Htr Hstep q.
  destruct (main_step_shape cfg ok s s' Hstep) as [(l & El & Hl) Hths].
  destruct (Hl q) as (He & Hr & Hc).
  destruct (Htr q) as [T1 T2].
  assert (Eev : events_of q (log s') = events_of q (log s)).
  { rewrite El, events_of_app, He, app_nil_r. reflexivity. }
  assert (Eret : returned q (log s') = returned q (log s)).
  { rewrite El, returned_app, Hr, app_nil_r. reflexivity. }
  assert (Eres : results q s' = results q s).
  { unfold results. rewrite El, countb_app, Hc. lia. }
  split.
  - intros m th Hm Hport. rewrite Eev.
    destruct Hths as [Et | (t & Epc & Et)]; rewrite Et in Hm.
    + apply (T1 m th Hm Hport).
    + apply nth_error_snoc in Hm. destruct Hm as [Hm | ->].
      * apply (T1 m th Hm Hport).
      * simpl in *. subst q.
        destruct (inv_counts _ _ Hinv (task_port t))
          as (Ha & Hb & Hsp & Hd & Hf).
        rewrite Epc in Hb. simpl in Hb. rewrite Z.eqb_refl in Hb.
        assert (Ha1 : (acquires (task_port t) s <= 1)%nat).
        { rewrite Ha. destruct (_ && _); lia. }
        apply events_of_none.
        destruct (countb (is_sys (task_port t)) (log s)) eqn:E;
          [reflexivity|].
        unfold probe_events in Hf. rewrite E in Hf.
        specialize (Hf ltac:(lia)). lia.
  - rewrite Eres, Eev, Eret. exact T2.
Qed.

Lemma worker_trace cfg n os s s' :
  inv cfg s -> trace_ok cfg s -> worker n os s = Some s' -> trace_ok cfg s'.
Proof.
  intros Hinv Htr Hstep q.
  apply worker_inversion in Hstep.
  destruct Hstep as (th & Hn & Hne & Epc & Hcase).
  destruct (Htr q) as [T1 T2].
  pose proof (nth_error_Forall _ _ _ _ (base_threads _ _ (inv_base _ _ Hinv))
                Hn) as (Htask & Hport & Hscan).
  destruct (inv_counts _ _ Hinv q) as (Ha & Hb & Hsp & Hd & Hf).
  assert (Ha1 : (acquires q s <= 1)%nat).
  { rewrite Ha. destruct (_ && _); lia. }
  (* a second thread probing the same port cannot exist *)
  assert (Halone : forall m th', nth_error (threads s) m = Some th' ->
            m <> n -> task_port (th_task th') = q ->
            task_port (th_task th) = q -> probing th = true ->
            probing th' = false).
  { intros m th' Hm Hmn Hq' Hq Hp.
    destruct (probing th') eqn:Hp'; [|reflexivity]. exfalso.
    assert (H2 : (2 <= probing_for q s)%nat).
    { unfold probing_for.
      apply (countb_two _ n m th th'); try assumption; try congruence;
        unfold for_port; rewrite ?Hq, ?Hq', Z.eqb_refl; simpl; assumption. }
    pose proof (probing_le_in_flight q s). lia. }
  destruct (th_pc th) as [|done [|e todo] ret| |] eqn:Eth.
  - (* entering scan_port *)
    destruct Hcase as (t & ret & Hsp' & _ & El & Et).
    unfold results. rewrite El, Et. split; [|exact T2].
    intros m th' Hm Hq'.
    destruct (Nat.eq_dec m n) as [->|Hmn].
    + apply (nth_error_replace_nth_same _ _ _ _ _ Hn) in Hm. subst th'.
      simpl in *. specialize (T1 n th Hn Hq'). rewrite Eth in T1. exact T1.
    + rewrite nth_error_replace_nth_other in Hm by assumption.
      apply (T1 m th' Hm Hq').
  - (* scan_port returns *)
    destruct Hcase as (_ & El & Et).
    unfold results. rewrite El, Et, events_of_app, returned_app, countb_app.
    simpl. rewrite app_nil_r. split.
    + intros m th' Hm Hq'.
      destruct (Nat.eq_dec m n) as [->|Hmn].
      * apply (nth_error_replace_nth_same _ _ _ _ _ Hn) in Hm. subst th'.
        exact I.
      * rewrite nth_error_replace_nth_other in Hm by assumption.
        apply (T1 m th' Hm Hq').
    + destruct (Z.eqb_spec (task_port (th_task th)) q) as [Hq|Hq].
      * intros _.
        specialize (T1 n th Hn Hq). rewrite Eth in T1.
        assert (Hp1 : (1 <= probing_for q s)%nat).
        { unfold probing_for. apply (countb_nth_error _ n th); [assumption|].
          unfold for_port, probing. rewrite Hq, Z.eqb_refl, Eth.
          reflexivity. }
        assert (Hres0 : results q s = 0%nat) by lia.
        destruct Hscan as [os' Hos]. exists os', ret.
        rewrite Htask in Hos. simpl in Hos. rewrite Hq in Hos.
        rewrite app_nil_r in Hos. rewrite T1.
        split; [assumption|].
        rewrite (returned_none q (log s) Hres0). reflexivity.
      * simpl. rewrite Nat.add_0_r, app_nil_r. exact T2.
  - (* one event of scan_port *)
    destruct Hcase as (_ & El & Et).
    unfold results. rewrite El, Et, events_of_app, returned_app, countb_app.
    simpl. rewrite Nat.add_0_r, app_nil_r.
    destruct (Z.eqb_spec (task_port (th_task th)) q) as [Hq|Hq].
    + assert (Hp : probing th = true)
        by (unfold probing; rewrite Eth; reflexivity).
      assert (Hp1 : (1 <= probing_for q s)%nat).
      { unfold probing_for. apply (countb_nth_error _ n th); [assumption|].
        unfold for_port. rewrite Hq, Z.eqb_refl, Hp. reflexivity. }
      split.
      * intros m th' Hm Hq'.
        destruct (Nat.eq_dec m n) as [->|Hmn].
        -- apply (nth_error_replace_nth_same _ _ _ _ _ Hn) in Hm. subst th'.
           simpl. specialize (T1 n th Hn Hq). rewrite Eth in T1.
           rewrite T1. reflexivity.
        -- rewrite nth_error_replace_nth_other in Hm by assumption.
           pose proof (Halone m th' Hm Hmn Hq' Hq Hp) as Hnp.
           unfold probing in Hnp.
           destruct (th_pc th'); try discriminate; exact I.
      * intros Hres. exfalso.
        change (countb (is_return q) (log s)) with (results q s) in Hres.
        lia.
    + rewrite app_nil_r. split; [|exact T2].
      intros m th' Hm Hq'.
      destruct (Nat.eq_dec m n) as [->|Hmn].
      * apply (nth_error_replace_nth_same _ _ _ _ _ Hn) in Hm. subst th'.
        simpl in Hq'. contradiction.
      * rewrite nth_error_replace_nth_other in Hm by assumption.
        apply (T1 m th' Hm Hq').
  - (* sem_post *)
    destruct Hcase as (_ & El & Et).
    unfold results. rewrite El, Et, events_of_app, returned_app, countb_app.
    simpl. rewrite Nat.add_0_r, !app_nil_r. split; [|exact T2].
    intros m th' Hm Hq'.
    destruct (Nat.eq_dec m n) as [->|Hmn].
    + apply (nth_error_replace_nth_same _ _ _ _ _ Hn) in Hm. subst th'.
      exact I.
    + rewrite nth_error_replace_nth_other in Hm by assumption.
      apply (T1 m th' Hm Hq').
  - (* the thread ends *)
    destruct Hcase as (_ & El & Et).
    unfold results. rewrite El, Et. split; [|exact T2].
    intros m th' Hm Hq'.
    destruct (nth_error_remove_nth _ _ _ _ Hm) as [m' Hm'].
    apply (T1 m' th' Hm' Hq').
Qed.

Lemma run_trace cfg sched :
  int_config cfg ->
  forall s s', inv cfg s -> trace_ok cfg s -> run cfg sched s = Some s' ->
    trace_ok cfg s'.
Proof.
  intros Hint.
  induction sched as [|c sched IH]; simpl; intros s s' Hinv Htr Hrun.
  - injection Hrun as <-. assumption.
  - destruct (step cfg c s) as [s1|] eqn:Hstep; [|discriminate].
    apply (IH s1 s'); [eapply step_inv; eassumption | | assumption].
    destruct c as [ok|n os]; simpl in Hstep.
    + eapply main_step_trace; eassumption.
    + eapply worker_trace; eassumption.
Qed.

(** X12. In the log, the events of a port are at every moment the
    beginning of one call of [scan_port] on the task of that port: the
    address of the configuration cut to 63 characters, the port, the
    configured timeout and verbose flag.  Once the call has returned they
    are the whole call, and the one value returned for the port is the
    value of that call. *)
Theorem port_log_is_one_call cfg s q :
  int_config cfg -> reachable cfg s ->
  exists os rest,
    fst (scan_port os (strncpy63 (ip cfg)) q (timeout_sec cfg) (verbose cfg))
    = events_of q (log s) ++ rest /\
    ((1 <= results q s)%nat ->
     rest = [] /\
     returned q (log s) =
       [snd (scan_port os (strncpy63 (ip cfg)) q (timeout_sec cfg)
               (verbose cfg))]).
Proof.
  intros Hint [sched Hrun].
  pose proof (run_inv cfg Hint sched _ _ (inv_initial cfg) Hrun) as Hinv.
  pose proof (run_trace cfg sched Hint _ _ (inv_initial cfg)
                (trace_ok_initial cfg) Hrun) as Htr.
  destruct (Htr q) as [T1 T2].
  destruct (inv_counts _ _ Hinv q) as (Ha & Hb & Hsp & Hd & Hf).
  assert (Ha1 : (acquires q s <= 1)%nat).
  { rewrite Ha. destruct (_ && _); lia. }
  destruct (results q s) as [|r] eqn:Hres.
  - destruct (probing_for q s) as [|k] eqn:Hprobe.
    + (* never launched, or not yet *)
      assert (Hev : events_of q (log s) = []).
      { apply events_of_none.
        destruct (countb (is_sys q) (log s)) eqn:E; [reflexivity|].
        unfold probe_events in Hf. rewrite E in Hf.
        specialize (Hf ltac:(lia)). lia. }
      exists os_accept. eexists. rewrite Hev. simpl.
      split; [reflexivity|]. intros H. lia.
    + (* a thread is at it *)
      destruct (countb_exists _ (threads s)
                  ltac:(unfold probing_for in Hprobe; rewrite Hprobe; lia))
        as (n & th & Hn & Hth).
      apply andb_prop in Hth. destruct Hth as [Hq Hp].
      unfold for_port in Hq. apply Z.eqb_eq in Hq.
      pose proof (nth_error_Forall _ _ _ _
                    (base_threads _ _ (inv_base _ _ Hinv)) Hn)
        as (Htask & Hport & Hscan).
      specialize (T1 n th Hn Hq).
      unfold probing in Hp.
      destruct (th_pc th) as [|done todo ret| |]; try discriminate.
      * exists os_accept. eexists. rewrite T1. simpl.
        split; [reflexivity|]. intros H. lia.
      * destruct Hscan as [os Hos]. rewrite Htask in Hos. simpl in Hos.
        rewrite Hq in Hos. exists os, todo. rewrite Hos, T1. simpl.
        split; [reflexivity|]. intros H. lia.
  - destruct (T2 ltac:(lia)) as (os & ret & Hos & Hret).
    exists os, []. rewrite Hos. simpl. rewrite app_nil_r.
    split; [reflexivity|]. intros _. split; [reflexivity|assumption].
Qed.

Lemma port_log_is_one_call_witness :
  int_config cfg_one_port /\ reachable cfg_one_port done_one_port /\
  exists os rest,
    fst (scan_port os (strncpy63 (ip cfg_one_port)) 80
           (timeout_sec cfg_one_port) (verbose cfg_one_port))
    = events_of 80 (log done_one_port) ++ rest.
Proof.
  assert (Hint : int_config cfg_one_port)
    by (unfold int_config, is_int; simpl; lia).
  assert (Hreach : reachable cfg_one_port done_one_port)
    by (exists sched_one_port; reflexivity).
  split; [exact Hint|]. split; [exact Hreach|].
  destruct (port_log_is_one_call cfg_one_port done_one_port 80 Hint Hreach)
    as (os & rest & E & _).
  exists os, rest. exact E.
Defined.

(** ** The option loop *)

Lemma substring_length_le m s : (String.length (substring 0 m s) <= m)%nat.
Proof.
  revert s; induction m as [|m IH]; intros [|c s]; simpl; try lia.
  specialize (IH s). lia.
Qed.

Lemma substring_short m s :
  (String.length s <= m)%nat -> substring 0 m s = s.
Proof.
  revert s; induction m as [|m IH]; intros [|c s]; simpl; intros H;
    try reflexivity; try lia.
  rewrite IH by lia. reflexivity.
Qed.

Lemma switch_known atoi cfg o :
  switch atoi cfg o = None <-> known_option (opt o) = false.
Proof.
  unfold switch, known_option.
  destruct (opt o =? "h")%char; [split; discriminate|].
  destruct (opt o =? "s")%char; [split; discriminate|].
  destruct (opt o =? "e")%char; [split; discriminate|].
  destruct (opt o =? "t")%char; [split; discriminate|].
  destruct (opt o =? "c")%char; [split; discriminate|].
  destruct (opt o =? "v")%char; [split; discriminate|].
  split; reflexivity.
Qed.

(** X13. One option character outside "hsetcv" anywhere on the command
    line, and only that, makes the option loop fail: nothing that stands
    before or after it is looked at, and [main] is over with the usage
    line and EXIT_FAILURE before there is a semaphore or a thread. *)
Theorem unknown_option_is_fatal atoi argv0 opts :
  (parse_args atoi opts = None <->
   exists o, In o opts /\ known_option (opt o) = false) /\
  (parse_args atoi opts = None ->
   forall s, main_states atoi argv0 opts s ->
     st_pc s = PExit EXIT_FAILURE /\ semaphore s = None /\ threads s = [] /\
     forall q, acquires q s = 0%nat /\ probe_events q s = 0%nat).
Proof.
  split.
  - unfold parse_args. generalize default_config.
    induction opts as [|o opts IH]; intros cfg; simpl.
    + split; [discriminate|]. intros (o & [] & _).
    + destruct (switch atoi cfg o) as [cfg'|] eqn:Hsw.
      * rewrite IH. split.
        -- intros (o' & Hin & Hk). exists o'. split; [right|]; assumption.
        -- intros (o' & [<-|Hin] & Hk).
           ++ apply (proj2 (switch_known atoi cfg o)) in Hk.
              rewrite Hk in Hsw. discriminate.
           ++ exists o'. split; assumption.
      * split; [|reflexivity]. intros _. exists o.
        split; [left; reflexivity|].
        apply (proj1 (switch_known atoi cfg o)). assumption.
  - intros Hnone s Hs. unfold main_states in Hs. rewrite Hnone in Hs.
    subst s. repeat split.
Qed.

Lemma unknown_option_is_fatal_witness :
  parse_args atoi_digits [{| opt := "x"; optarg := "" |}] = None /\
  st_pc (usage_exit "portscanner") = PExit EXIT_FAILURE.
Proof.
  assert (H : parse_args atoi_digits [{| opt := "x"; optarg := "" |}] = None)
    by reflexivity.
  split; [exact H|].
  apply (proj2 (unknown_option_is_fatal atoi_digits "portscanner"
                  [{| opt := "x"; optarg := "" |}]) H).
  unfold main_states. rewrite H. reflexivity.
Defined.

Lemma switch_effect atoi c0 o c1 :
  switch atoi c0 o = Some c1 ->
  ip c1 = (if (opt o =? "h")%char then strncpy63 (optarg o) else ip c0) /\
  start_port c1 =
    (if (opt o =? "s")%char then atoi (optarg o) else start_port c0) /\
  end_port c1 =
    (if (opt o =? "e")%char then atoi (optarg o) else end_port c0) /\
  timeout_sec c1 =
    (if (opt o =? "t")%char then atoi (optarg o) else timeout_sec c0) /\
  concurrency c1 =
    (if (opt o =? "c")%char then atoi (optarg o) else concurrency c0) /\
  verbose c1 = verbose c0 || (opt o =? "v")%char.
Proof.
  unfold switch.
  destruct (Ascii.eqb_spec (opt o) "h") as [E|_];
    [rewrite E; simpl; intros H; injection H as <-; simpl;
     rewrite orb_false_r; repeat split|].
  destruct (Ascii.eqb_spec (opt o) "s") as [E|_];
    [rewrite E; simpl; intros H; injection H as <-; simpl;
     rewrite orb_false_r; repeat split|].
  destruct (Ascii.eqb_spec (opt o) "e") as [E|_];
    [rewrite E; simpl; intros H; injection H as <-; simpl;
     rewrite orb_false_r; repeat split|].
  destruct (Ascii.eqb_spec (opt o) "t") as [E|_];
    [rewrite E; simpl; intros H; injection H as <-; simpl;
     rewrite orb_false_r; repeat split|].
  destruct (Ascii.eqb_spec (opt o) "c") as [E|_];
    [rewrite E; simpl; intros H; injection H as <-; simpl;
     rewrite orb_false_r; repeat split|].
  destruct (Ascii.eqb_spec (opt o) "v") as [E|_]; [|discriminate].
  intros H; injection H as <-; simpl. rewrite orb_true_r. repeat split.
Qed.

Lemma getopt_loop_last atoi opts :
  forall c0 cfg, getopt_loop atoi opts c0 = Some cfg ->
    ip cfg = match last_arg "h" opts with
             | Some a => strncpy63 a | None => ip c0 end /\
    start_port cfg = match last_arg "s" opts with
                     | Some a => atoi a | None => start_port c0 end /\
    end_port cfg = match last_arg "e" opts with
                   | Some a => atoi a | None => end_port c0 end /\
    timeout_sec cfg = match last_arg "t" opts with
                      | Some a => atoi a | None => timeout_sec c0 end /\
    concurrency cfg = match last_arg "c" opts with
                      | Some a => atoi a | None => concurrency c0 end /\
    verbose cfg = verbose c0 || existsb (fun o => (opt o =? "v")%char) opts.
Proof.
  induction opts as [|o opts IH]; intros c0 cfg; simpl.
  - intros E. injection E as <-. rewrite orb_false_r. repeat split.
  - destruct (switch atoi c0 o) as [c1|] eqn:Hsw; [|discriminate].
    intros Hloop. specialize (IH c1 cfg Hloop).
    destruct IH as (Hh & Hs & He & Ht & Hc & Hv).
    destruct (switch_effect atoi c0 o c1 Hsw)
      as (Eh & Es & Ee & Et & Ec & Ev).
    rewrite Hh, Hs, He, Ht, Hc, Hv, Eh, Es, Ee, Et, Ec, Ev.
    repeat split.
    + destruct (last_arg "h" opts); [reflexivity|].
      destruct (opt o =? "h")%char; reflexivity.
    + destruct (last_arg "s" opts); [reflexivity|].
      destruct (opt o =? "s")%char; reflexivity.
    + destruct (last_arg "e" opts); [reflexivity|].
      destruct (opt o =? "e")%char; reflexivity.
    + destruct (last_arg "t" opts); [reflexivity|].
      destruct (opt o =? "t")%char; reflexivity.
    + destruct (last_arg "c" opts); [reflexivity|].
      destruct (opt o =? "c")%char; reflexivity.
    + rewrite orb_assoc. reflexivity.
Qed.

(** X14. When the option loop succeeds, every setting is decided by the
    last option that names it, and keeps its default when no option does:
    the address is the argument of the last -h cut to 63 characters
    (default 127.0.0.1), the first and last port, the timeout and the
    concurrency limit are [atoi] of the argument of the last -s, -e, -t
    and -c (defaults 1, 1024, 1 and 50), and the verbose flag is set
    exactly when a -v occurs. *)
Theorem last_option_wins atoi opts cfg :
  parse_args atoi opts = Some cfg ->
  ip cfg = match last_arg "h" opts with
           | Some a => strncpy63 a | None => "127.0.0.1"%string end /\
  start_port cfg = match last_arg "s" opts with
                   | Some a => atoi a | None => 1 end /\
  end_port cfg = match last_arg "e" opts with
                 | Some a => atoi a | None => 1024 end /\
  timeout_sec cfg = match last_arg "t" opts with
                    | Some a => atoi a | None => 1 end /\
  concurrency cfg = match last_arg "c" opts with
                    | Some a => atoi a | None => 50 end /\
  verbose cfg = existsb (fun o => (opt o =? "v")%char) opts.
Proof.
  intros H. apply (getopt_loop_last atoi opts default_config cfg H).
Qed.

Lemma last_option_wins_witness :
  exists cfg,
    parse_args atoi_digits args_example = Some cfg /\
    start_port cfg = 22 /\ end_port cfg = 25 /\ verbose cfg = true.
Proof.
  assert (H : parse_args atoi_digits args_example
              = Some {| ip := "127.0.0.1"; start_port := 22; end_port := 25;
                        timeout_sec := 1; concurrency := 50;
                        verbose := true |}) by reflexivity.
  eexists. split; [exact H|].
  destruct (last_option_wins atoi_digits args_example _ H)
    as (_ & Hs & He & _ & _ & Hv).
  split; [exact Hs|]. split; [exact He|exact Hv].
Defined.

Lemma getopt_loop_ip_length atoi opts :
  forall c0 cfg, getopt_loop atoi opts c0 = Some cfg ->
    (String.length (ip c0) <= 63)%nat -> (String.length (ip cfg) <= 63)%nat.
Proof.
  intros c0 cfg H H0.
  destruct (getopt_loop_last atoi opts c0 cfg H) as (Hh & _).
  rewrite Hh. destruct (last_arg "h" opts); [|assumption].
  apply substring_length_le.
Qed.

(** X15. The address never overflows its buffers: whatever the length
    of the argument of -h, the address of the parsed configuration has at
    most 63 characters, so that the copy into each task is the whole
    address; the task of a port carries that port and the timeout and
    verbose flag of the configuration. *)
Theorem address_fits_its_buffer atoi opts cfg :
  parse_args atoi opts = Some cfg ->
  (String.length (ip cfg) <= 63)%nat /\
  forall port,
    task_ip (make_task cfg port) = ip cfg /\
    task_port (make_task cfg port) = port /\
    task_timeout_sec (make_task cfg port) = timeout_sec cfg /\
    task_verbose (make_task cfg port) = verbose cfg.
Proof.
  intros H.
  assert (Hlen : (String.length (ip cfg) <= 63)%nat).
  { apply (getopt_loop_ip_length atoi opts default_config cfg H).
    simpl. lia. }
  split; [assumption|]. intros port. simpl.
  split; [apply substring_short; assumption|]. repeat split.
Qed.

Lemma address_fits_its_buffer_witness :
  exists cfg,
    parse_args atoi_digits args_example = Some cfg /\
    (String.length (ip cfg) <= 63)%nat.
Proof.
  assert (H : parse_args atoi_digits args_example
              = Some {| ip := "127.0.0.1"; start_port := 22; end_port := 25;
                        timeout_sec := 1; concurrency := 50;
                        verbose := true |}) by reflexivity.
  eexists. split; [exact H|].
  exact (proj1 (address_fits_its_buffer atoi_digits args_example _ H)).
Defined.

Lemma getopt_loop_int atoi opts :
  (forall a, is_int (atoi a)) ->
  forall c0 cfg, getopt_loop atoi opts c0 = Some cfg ->
    int_config c0 -> int_config cfg.
Proof.
  intros Hatoi c0 cfg H (H1 & H2 & H3 & H4).
  destruct (getopt_loop_last atoi opts c0 cfg H)
    as (_ & Hs & He & Ht & Hc & _).
  unfold int_config. rewrite Hs, He, Ht, Hc.
  split; [|split; [|split]];
    match goal with
    | |- context [last_arg ?c opts] => destruct (last_arg c opts)
    end; auto.
Qed.

Lemma atoi_digits_int a : is_int (atoi_digits a).
Proof.
  unfold is_int, atoi_digits.
  pose proof (Z.mod_pos_bound (leading_digits a 0 + 2 ^ 31) (2 ^ 32)
                ltac:(lia)).
  lia.
Qed.

(** X16. Whatever the command line, with an [atoi] that returns [int]s,
    and as long as no probe has overrun its descriptor set (a descriptor
    that is FD_SETSIZE or more makes FD_SET write outside the set, and
    the process may then end in any way): [main] exits only with status 0
    or EXIT_FAILURE, a slot is only ever taken for a port between 1 and
    65535, and the probes in flight never outnumber the concurrency limit
    read from the command line. *)
Theorem main_on_any_command_line atoi argv0 opts s :
  (forall a, is_int (atoi a)) -> main_states atoi argv0 opts s ->
  overran s = false ->
  (forall st, st_pc s = PExit st -> st = 0 \/ st = EXIT_FAILURE) /\
  (forall q, (1 <= acquires q s)%nat -> 1 <= q <= 65535) /\
  (forall cfg, parse_args atoi opts = Some cfg ->
     Z.of_nat (in_flight s) <= Z.max 0 (concurrency cfg)).
Proof.
  intros Hatoi Hs _. unfold main_states in Hs.
  destruct (parse_args atoi opts) as [cfg|] eqn:Hparse.
  - assert (Hint : int_config cfg).
    { apply (getopt_loop_int atoi opts Hatoi default_config cfg Hparse).
      unfold int_config, is_int. simpl. lia. }
    pose proof (reachable_inv cfg Hint s Hs) as Hinv.
    split; [|split].
    + intros st E. destruct Hinv as [[Hpc _ _] _ _ _].
      rewrite E in Hpc. simpl in Hpc.
      destruct Hpc as [[-> _]| ->]; [left|right]; reflexivity.
    + intros q Hq.
      destruct (acquired_in_range cfg s q Hinv Hq) as [Hr Hv].
      destruct (valid_range_bounds cfg Hv) as (H1 & H2 & H3). lia.
    + intros cfg' E. injection E as <-.
      destruct Hinv as [[Hpc Hsem _] _ _ _]. unfold sem_ok in Hsem.
      destruct (semaphore s) as [v|].
      * destruct Hsem as (_ & Hv & Hsum).
        destruct (st_pc s); simpl in *; lia.
      * destruct Hsem as [_ E]. unfold in_flight. rewrite E. simpl. lia.
  - subst s. split; [|split].
    + intros st E. injection E as <-. right. reflexivity.
    + intros q Hq. unfold acquires in Hq. simpl in Hq. lia.
    + intros cfg E. discriminate.
Qed.

Lemma main_on_any_command_line_witness :
  (forall a, is_int (atoi_digits a)) /\
  main_states atoi_digits "portscanner" args_one_port done_one_port /\
  overran done_one_port = false /\
  st_pc done_one_port = PExit 0 /\
  acquires 80 done_one_port = 1%nat /\
  (forall st, st_pc done_one_port = PExit st -> st = 0 \/ st = EXIT_FAILURE) /\
  (forall q, (1 <= acquires q done_one_port)%nat -> 1 <= q <= 65535) /\
  (forall cfg, parse_args atoi_digits args_one_port = Some cfg ->
     Z.of_nat (in_flight done_one_port) <= Z.max 0 (concurrency cfg)).
Proof.
  assert (Hs : main_states atoi_digits "portscanner" args_one_port
                 done_one_port).
  { unfold main_states.
    change (parse_args atoi_digits args_one_port) with (Some cfg_one_port).
    exists sched_one_port. reflexivity. }
  assert (Ho : overran done_one_port = false) by reflexivity.
  split; [exact atoi_digits_int|]. split; [exact Hs|]. split; [exact Ho|].
  split; [reflexivity|]. split; [reflexivity|].
  apply (main_on_any_command_line atoi_digits "portscanner" args_one_port
           done_one_port atoi_digits_int Hs Ho).
Defined.
